(** * GGompertz/NBD log-likelihood (src/ggomnbd_LL.cpp)

    A shallow embedding of the four exported evaluators
    [ggomnbd_nocov_LL_ind], [ggomnbd_nocov_LL_sum],
    [ggomnbd_staticcov_LL_ind], [ggomnbd_staticcov_LL_sum] and of the
    kernel [ggomnbd_LL_ind] they share.

    The C++ code computes on [double] through three libraries that are not
    part of the repository: the C maths library (exp, log, pow, lgamma),
    Armadillo (vectors and matrices with bounds and size checks) and GSL
    (the QAGS integrator).  The embedding is written once over an interface
    [Double] of the scalar operations, with Armadillo's checked operations
    over lists and with the integrator as a section variable.  It is
    instantiated at the real numbers, where the algebraic statements of
    the specification live, and at IEEE 754 binary64, where overflow can
    be observed. *)

From Stdlib Require Import List Bool Arith ZArith QArith Lia.
From Stdlib Require Import Reals Lra ClassicalEpsilon Floats.
Import ListNotations.

Close Scope Q_scope.
Close Scope R_scope.
Close Scope Z_scope.

Set Implicit Arguments.

(** ** Scalars *)

(** The operations the source applies to [double] values. [dlit] reads a
    numeric literal of the source text. *)
Class Double (num : Type) : Type := {
  dlit    : Q -> num;
  dadd    : num -> num -> num;
  dsub    : num -> num -> num;
  dmul    : num -> num -> num;
  dneg    : num -> num;
  deqb    : num -> num -> bool;
  dgtb    : num -> num -> bool;
  dexp    : num -> num;
  dlog    : num -> num;
  dpow    : num -> num -> num;
  dlgamma : num -> num
}.

Declare Scope double_scope.
Delimit Scope double_scope with D.
Infix "+" := dadd : double_scope.
Infix "-" := dsub : double_scope.
Infix "*" := dmul : double_scope.
Notation "- x" := (dneg x) : double_scope.
Infix "==" := deqb (at level 70, no associativity) : double_scope.
Infix ">?" := dgtb (at level 70, no associativity) : double_scope.

(** ** Failure and the evaluation monad *)

(** The exceptions Armadillo raises when its checks are enabled (the
    default under RcppArmadillo): an element or sub-vector index outside
    the object, operands whose sizes do not conform, and an extremum asked
    of an object without elements. *)
Inductive error : Type :=
| IndexOutOfBounds
| IncompatibleDimensions
| NoElements.

Inductive Result (A : Type) : Type :=
| Ok (a : A)
| Err (e : error).
Arguments Ok {A} a.
Arguments Err {A} e.

Definition is_ok {A} (x : Result A) : bool :=
  match x with Ok _ => true | Err _ => false end.

Definition rbind {A B} (x : Result A) (f : A -> Result B) : Result B :=
  match x with
  | Ok a => f a
  | Err e => Err e
  end.

Declare Scope result_scope.
Delimit Scope result_scope with res.
Notation "x <- c ;; k" := (rbind c (fun x => k))
  (at level 61, c at next level, right associativity) : result_scope.

(** ** Armadillo vectors and matrices *)

Section Armadillo.
Context {num : Type} {DN : Double num}.
Local Open Scope double_scope.

Definition vec := list num.

(** [v(i)]: checked element access. *)
Definition vec_at (v : vec) (i : nat) : Result num :=
  match nth_error v i with
  | Some x => Ok x
  | None => Err IndexOutOfBounds
  end.

(** [v.max()] and [v.min()]: a running extremum over the elements; an
    object without elements is refused. *)
Definition vec_max (v : vec) : Result num :=
  match v with
  | [] => Err NoElements
  | x :: t => Ok (fold_left (fun m y => if y >? m then y else m) t x)
  end.

Definition vec_min (v : vec) : Result num :=
  match v with
  | [] => Err NoElements
  | x :: t => Ok (fold_left (fun m y => if m >? y then y else m) t x)
  end.

(** Element-wise binary operations ([+], [-], [%]) check that both
    operands have the same number of elements. *)
Fixpoint zip_with (f : num -> num -> num) (v w : vec) : vec :=
  match v, w with
  | x :: v', y :: w' => f x y :: zip_with f v' w'
  | _, _ => []
  end.

Definition vec_zip (f : num -> num -> num) (v w : vec) : Result vec :=
  if length v =? length w then Ok (zip_with f v w)
  else Err IncompatibleDimensions.

Definition vec_add := vec_zip dadd.
Definition vec_sub := vec_zip dsub.
Definition vec_schur := vec_zip dmul.

(** [v.subvec(first, last)], both ends included. *)
Definition subvec (v : vec) (first last : nat) : Result vec :=
  if (last <? first) || (length v <=? last) then Err IndexOutOfBounds
  else Ok (firstn (last - first + 1) (skipn first v)).

(** [arma::sum(v)]. *)
Definition arma_sum (v : vec) : num :=
  fold_left dadd v (dlit 0%Q).

(** A dense matrix: its dimensions and its elements by columns. *)
Record mat : Type := {
  n_rows : nat;
  n_cols : nat;
  mem : list num
}.

Definition mat_at (M : mat) (i j : nat) : num :=
  nth (i + j * n_rows M) (mem M) (dlit 0%Q).

(** [M * k] for a scalar [k]. *)
Definition mat_scale (M : mat) (k : num) : mat :=
  {| n_rows := n_rows M; n_cols := n_cols M;
     mem := map (fun x => x * k) (mem M) |}.

Definition mat_row (M : mat) (i : nat) : vec :=
  map (mat_at M i) (seq 0 (n_cols M)).

Definition dot (u v : vec) : num :=
  fold_left dadd (zip_with dmul u v) (dlit 0%Q).

(** [M * v]: the column count of [M] must be the length of [v]. *)
Definition mat_vec (M : mat) (v : vec) : Result vec :=
  if n_cols M =? length v
  then Ok (map (fun i => dot (mat_row M i) v) (seq 0 (n_rows M)))
  else Err IncompatibleDimensions.

End Armadillo.

Arguments vec num : clear implicits.
Arguments mat num : clear implicits.

(** ** GSL *)

(** Status codes a call of [gsl_integration_qags] can report. *)
Inductive gsl_status : Type :=
| GSL_SUCCESS
| GSL_EMAXITER
| GSL_EROUND
| GSL_ESING
| GSL_EDIVERGE
| GSL_EBADTOL
| GSL_EINVAL
| GSL_EFAILED.

(** What a call hands back: its return value and the two output
    parameters [*result] and [*abserr]. *)
Record qags_outcome (num : Type) : Type := {
  status : gsl_status;
  result : num;
  abserr : num
}.

(** [gsl_integration_qags(f, a, b, epsabs, epsrel, limit, workspace, ..)];
    of the workspace only the capacity it was allocated with matters.
    The routine is not part of the repository: it is a parameter of the
    evaluators.  It is taken to be a function of its arguments (it
    initialises the workspace on entry) and to return to its caller with
    a status; under GSL's default error handler a call that fails aborts
    the process instead, which no statement here covers. *)
Definition integrator (num : Type) : Type :=
  (num -> num) -> num -> num -> num -> num -> nat -> nat -> qags_outcome num.

(** ** Process state *)

(** The file-level variables of the anonymous namespace (lines 11-14).
    A pointer to a caller's vector is kept as the vector it points to. *)
Record Globals (num : Type) : Type := {
  gpvX : vec num;
  gpvAlpha_i : vec num;
  gpvBeta_i : vec num;
  globI : nat;
  r_glob : num;
  b_glob : num;
  s_glob : num
}.

(** Lines written to [Rcpp::Rcout]. *)
Inductive message (num : Type) : Type :=
| LowerBoundaryZero
    (* "Log of the integral might diverge; Lower Boundary = 0 " *)
| UpperBoundary (above : num)
    (* "Log of the integral might diverge; Upper Boundary =" << above *).
Arguments LowerBoundaryZero {num}.

Record World (num : Type) : Type := {
  globals : Globals num;
  rcout : list (message num)
}.

(** A computation reads and writes the process state and may raise; the
    state written before an exception stays written. *)
Definition M (num A : Type) : Type := World num -> Result A * World num.

Section Monad.
Context {num : Type}.

Definition ret {A} (a : A) : M num A := fun w => (Ok a, w).

Definition bind {A B} (c : M num A) (f : A -> M num B) : M num B :=
  fun w =>
    match c w with
    | (Ok a, w') => f a w'
    | (Err e, w') => (Err e, w')
    end.

Definition lift {A} (x : Result A) : M num A := fun w => (x, w).

Definition get_globals : M num (Globals num) :=
  fun w => (Ok (globals w), w).

Definition set_globals (g : Globals num) : M num unit :=
  fun w => (Ok tt, {| globals := g; rcout := rcout w |}).

Definition print (m : message num) : M num unit :=
  fun w => (Ok tt, {| globals := globals w; rcout := rcout w ++ [m] |}).

Definition when (b : bool) (c : M num unit) : M num unit :=
  if b then c else ret tt.

End Monad.

Declare Scope m_scope.
Delimit Scope m_scope with M.
Notation "x <- c ;; k" := (bind c (fun x => k))
  (at level 61, c at next level, right associativity) : m_scope.
Notation "c ;; k" := (bind c (fun _ => k))
  (at level 61, right associativity) : m_scope.

(** ** The evaluators *)

Section Evaluator.
Context {num : Type} {DN : Double num}.
Variable qags : integrator num.
Local Open Scope double_scope.

(** Reading a vector at [globI] inside the integrand. The access is checked;
    the check itself is made by [integration_loop] before the integrator
    is entered, see there. *)
Definition elem (v : vec num) (i : nat) : num := nth i v (dlit 0%Q).

(** Lines 17-22. *)
Definition integrationFunction (g : Globals num) (x : num) : num :=
  dpow (x + elem (gpvAlpha_i g) (globI g))
       (- (r_glob g + elem (gpvX g) (globI g)))
  * dpow (elem (gpvBeta_i g) (globI g) + dexp (b_glob g * x) - dlit 1%Q)
         (- (s_glob g + dlit 1%Q))
  * dexp (b_glob g * x).

(** Line 49. *)
Definition lower_boundary (r b s : num)
    (vAlpha_i vBeta_i vX vT_x : vec num) : Result num :=
  (tmax <- vec_max vT_x ;;
   amax <- vec_max vAlpha_i ;;
   xmax <- vec_max vX ;;
   bmax <- vec_max vBeta_i ;;
   tmin <- vec_min vT_x ;;
   Ok (dpow (tmax + amax) (- (r + xmax))
       * dpow (bmax + dexp (b * tmax) - dlit 1%Q) (- (s + dlit 1%Q))
       * dexp (b * tmin)))%res.

(** Line 50. *)
Definition upper_boundary (r b s : num)
    (vAlpha_i vBeta_i vX vT_x : vec num) : Result num :=
  (tmin <- vec_min vT_x ;;
   amin <- vec_min vAlpha_i ;;
   xmax <- vec_max vX ;;
   bmin <- vec_min vBeta_i ;;
   tmax <- vec_max vT_x ;;
   Ok (dpow (tmin + amin) (- (r + xmax))
       * dpow (bmin + dexp (b * tmin) - dlit 1%Q) (- (s + dlit 1%Q))
       * dexp (b * tmax)))%res.

(** An assignment to [globI]. *)
Definition with_globI (g : Globals num) (i : nat) : Globals num :=
  {| gpvX := gpvX g; gpvAlpha_i := gpvAlpha_i g;
     gpvBeta_i := gpvBeta_i g; globI := i;
     r_glob := r_glob g; b_glob := b_glob g; s_glob := s_glob g |}.

Definition set_globI (i : nat) : M num unit :=
  (g <- get_globals ;; set_globals (with_globI g i))%M.

(** Lines 70-73, entered with [globI] already set; [todo] counts the
    iterations left and [vIntegrals] holds the entries written so far.
    The arguments [vT_x(globI)] and [vT_cal(globI)] are read first.  QAGS
    evaluates its integrand before anything else, and every evaluation
    reads the three vectors at [globI], so an index they do not have
    raises during the call: those three checks are made here and the
    integrand itself is handed over as a total function.  The call is
    written as in line 71: both tolerances [1.0e-8], [0] for [limit],
    and the workspace of line 64, allocated for 1000 intervals.  The
    status the call returns and [err] are not used. *)
Fixpoint integration_loop (todo : nat) (vT_x vT_cal vIntegrals : vec num)
  : M num (vec num) :=
  match todo with
  | O => ret vIntegrals
  | S todo' =>
      (g <- get_globals ;;
       a <- lift (vec_at vT_x (globI g)) ;;
       b <- lift (vec_at vT_cal (globI g)) ;;
       _ <- lift (vec_at (gpvAlpha_i g) (globI g)) ;;
       _ <- lift (vec_at (gpvX g) (globI g)) ;;
       _ <- lift (vec_at (gpvBeta_i g) (globI g)) ;;
       let res :=
         result (qags (integrationFunction g) a b
                      (dlit (1 # 100000000)%Q) (dlit (1 # 100000000)%Q)
                      0 1000) in
       set_globI (S (globI g)) ;;
       integration_loop todo' vT_x vT_cal (vIntegrals ++ [res]))%M
  end.

(** The right-hand side of line 88. *)
Definition L1_terms (r b s : num)
    (vAlpha_i vBeta_i vX vT_cal : vec num) : Result (vec num) :=
  (at1 <- vec_add vAlpha_i vT_cal ;;
   d1 <- vec_sub (map dlog vAlpha_i) (map dlog at1) ;;
   at2 <- vec_add vAlpha_i vT_cal ;;
   x_term <- vec_schur vX (map (dsub (dlit 0%Q)) (map dlog at2)) ;;
   sum1 <- vec_add (map (dmul r) d1) x_term ;;
   bt <- vec_add (map (fun v => v - dlit 1%Q) vBeta_i)
                 (map dexp (map (dmul b) vT_cal)) ;;
   d2 <- vec_sub (map dlog vBeta_i) (map dlog bt) ;;
   vec_add sum1 (map (dmul s) d2))%res.

(** The right-hand side of line 89. *)
Definition L2_terms (r b s : num)
    (vAlpha_i vBeta_i vIntegrals : vec num) : Result (vec num) :=
  (let t1 := map (dadd (dlog b)) (map (dmul r) (map dlog vAlpha_i)) in
   let t2 := map (fun v => v + dlog s) t1 in
   t3 <- vec_add t2 (map (dmul s) (map dlog vBeta_i)) ;;
   vec_add t3 (map dlog vIntegrals))%res.

(** Lines 75-94: the two closed-form parts and their combination. *)
Definition log_likelihood (r b s : num)
    (vAlpha_i vBeta_i vX vT_cal vIntegrals : vec num) : Result (vec num) :=
  (let r_lgamma := dlgamma r in
   let vL1 := map (fun x => dlgamma (r + x) - r_lgamma) vX in
   let vL2 := map (fun x => dlgamma (r + x) - r_lgamma) vX in
   t1 <- L1_terms r b s vAlpha_i vBeta_i vX vT_cal ;;
   vL1 <- vec_add vL1 t1 ;;
   t2 <- L2_terms r b s vAlpha_i vBeta_i vIntegrals ;;
   vL2 <- vec_add vL2 t2 ;;
   e <- vec_add (map dexp vL1) (map dexp vL2) ;;
   Ok (map dlog e))%res.

(** Lines 27-97. *)
Definition ggomnbd_LL_ind (r b s : num)
    (vAlpha_i vBeta_i vX vT_x vT_cal : vec num) : M num (vec num) :=
  (let n := length vX in
   g <- get_globals ;;
   set_globals {| gpvX := vX; gpvAlpha_i := vAlpha_i;
                  gpvBeta_i := vBeta_i; globI := globI g;
                  r_glob := r; b_glob := b; s_glob := s |} ;;
   below <- lift (lower_boundary r b s vAlpha_i vBeta_i vX vT_x) ;;
   above <- lift (upper_boundary r b s vAlpha_i vBeta_i vX vT_x) ;;
   when (below == dlit 0%Q) (print LowerBoundaryZero) ;;
   when (above >? dpow (dlit 10%Q) (dlit 200%Q)) (print (UpperBoundary above)) ;;
   set_globI 0 ;;
   vIntegrals <- integration_loop n vT_x vT_cal [] ;;
   lift (log_likelihood r b s vAlpha_i vBeta_i vX vT_cal vIntegrals))%M.

(** What the two variants hand to the kernel. *)
Record parameters : Type := {
  p_r : num;
  p_alpha_0 : num;
  p_b : num;
  p_s : num;
  p_beta_0 : num;
  p_vAlpha_i : vec num;
  p_vBeta_i : vec num
}.

(** Lines 106-120. *)
Definition nocov_parameters (vLogparams vX : vec num) : Result parameters :=
  (p0 <- vec_at vLogparams 0 ;;
   p1 <- vec_at vLogparams 1 ;;
   p2 <- vec_at vLogparams 2 ;;
   p3 <- vec_at vLogparams 3 ;;
   p4 <- vec_at vLogparams 4 ;;
   let r := dexp p0 in
   let alpha_0 := dexp p1 in
   let b := dexp p2 in
   let s := dexp p3 in
   let beta_0 := dexp p4 in
   let n := length vX in
   Ok {| p_r := r; p_alpha_0 := alpha_0; p_b := b; p_s := s;
         p_beta_0 := beta_0;
         p_vAlpha_i := repeat alpha_0 n;
         p_vBeta_i := repeat beta_0 n |})%res.

(** Lines 101-128. *)
Definition ggomnbd_nocov_LL_ind (vLogparams vX vT_x vT_cal : vec num)
  : M num (vec num) :=
  (p <- lift (nocov_parameters vLogparams vX) ;;
   ggomnbd_LL_ind (p_r p) (p_b p) (p_s p) (p_vAlpha_i p) (p_vBeta_i p)
                  vX vT_x vT_cal)%M.

(** Lines 165-181. *)
Definition ggomnbd_nocov_LL_sum (vLogparams vX vT_x vT_cal : vec num)
  : M num num :=
  (vLL <- ggomnbd_nocov_LL_ind vLogparams vX vT_x vT_cal ;;
   ret (- arma_sum vLL))%M.

(** Lines 237-259. *)
Definition staticcov_parameters (vParams : vec num)
    (mCov_life mCov_trans : mat num) : Result parameters :=
  (p0 <- vec_at vParams 0 ;;
   p1 <- vec_at vParams 1 ;;
   p2 <- vec_at vParams 2 ;;
   p3 <- vec_at vParams 3 ;;
   p4 <- vec_at vParams 4 ;;
   let r := dexp p0 in
   let alpha_0 := dexp p1 in
   let b := dexp p2 in
   let s := dexp p3 in
   let beta_0 := dexp p4 in
   let no_model_params := 5%nat in
   let num_cov_life := n_cols mCov_life in
   let num_cov_trans := n_cols mCov_trans in
   vLife_params <-
     subvec vParams no_model_params
            (no_model_params + num_cov_life - 1) ;;
   vTrans_params <-
     subvec vParams (no_model_params + num_cov_life)
            (no_model_params + num_cov_life + num_cov_trans - 1) ;;
   ta <- mat_vec (mat_scale mCov_trans (dlit (-1)%Q)) vTrans_params ;;
   let vAlpha_i := map (dmul alpha_0) (map dexp ta) in
   tb <- mat_vec (mat_scale mCov_life (dlit (-1)%Q)) vLife_params ;;
   let vBeta_i := map (dmul beta_0) (map dexp tb) in
   Ok {| p_r := r; p_alpha_0 := alpha_0; p_b := b; p_s := s;
         p_beta_0 := beta_0;
         p_vAlpha_i := vAlpha_i;
         p_vBeta_i := vBeta_i |})%res.

(** Lines 223-274. *)
Definition ggomnbd_staticcov_LL_ind (vParams vX vT_x vT_cal : vec num)
    (mCov_life mCov_trans : mat num) : M num (vec num) :=
  (p <- lift (staticcov_parameters vParams mCov_life mCov_trans) ;;
   ggomnbd_LL_ind (p_r p) (p_b p) (p_s p) (p_vAlpha_i p) (p_vBeta_i p)
                  vX vT_x vT_cal)%M.

(** Lines 327-338. *)
Definition ggomnbd_staticcov_LL_sum (vParams vX vT_x vT_cal : vec num)
    (mCov_life mCov_trans : mat num) : M num num :=
  (vLL <- ggomnbd_staticcov_LL_ind vParams vX vT_x vT_cal
                                   mCov_life mCov_trans ;;
   ret (- arma_sum vLL))%M.

End Evaluator.

(** ** Exact arithmetic *)

(** The logarithm of the absolute value of Euler's Gamma function, with
    Gamma taken as the limit of Gauss's products
    [n! n^x / (x (x+1) ... (x+n))]. *)
Definition Rlim (u : nat -> R) : R :=
  epsilon (inhabits 0%R) (fun l => Un_cv u l).

Fixpoint rising (x : R) (n : nat) : R :=
  match n with
  | O => x
  | S k => (rising x k * (x + INR n))%R
  end.

Definition gauss_product (x : R) (n : nat) : R :=
  (INR (fact n) * Rpower (INR n) x / rising x n)%R.

Definition Rgamma (x : R) : R := Rlim (gauss_product x).

Definition Rlgamma (x : R) : R := ln (Rabs (Rgamma x)).

(** [double] read as the real numbers: every operation is exact, and
    nothing rounds, overflows or underflows.  [log] and [pow] are the
    real logarithm and power where those are defined, for a positive
    argument and a positive base; elsewhere [ln] is 0 and [Rpower] is 1,
    where [double] has an infinity or a NaN.  This instance is for what
    holds of the formulas; what the evaluators do on every input is
    stated for every instance, the one of [Binary64] included. *)
#[export] Instance Real : Double R := {|
  dlit := Q2R;
  dadd := Rplus;
  dsub := Rminus;
  dmul := Rmult;
  dneg := Ropp;
  deqb := fun a b => if Req_dec_T a b then true else false;
  dgtb := fun a b => if Rgt_dec a b then true else false;
  dexp := exp;
  dlog := ln;
  dpow := Rpower;
  dlgamma := Rlgamma
|}.

(** ** What the kernel computes for one customer *)

Section Customer.
Context {num : Type} {DN : Double num}.
Variable qags : integrator num.
Local Open Scope double_scope.

(** The integrand with the values it reads through the globals made
    explicit. *)
Definition integrand (r b s alpha beta x : num) : num -> num :=
  fun y =>
    dpow (y + alpha) (- (r + x))
    * dpow (beta + dexp (b * y) - dlit 1%Q) (- (s + dlit 1%Q))
    * dexp (b * y).

(** The call of line 71 for one customer. *)
Definition qags_call (r b s alpha beta x t_x t_cal : num)
  : qags_outcome num :=
  qags (integrand r b s alpha beta x) t_x t_cal
       (dlit (1 # 100000000)%Q) (dlit (1 # 100000000)%Q) 0 1000.

Definition customer_L1 (r b s alpha beta x t_cal : num) : num :=
  (dlgamma (r + x) - dlgamma r)
  + (r * (dlog alpha - dlog (alpha + t_cal))
     + x * (dlit 0%Q - dlog (alpha + t_cal))
     + s * (dlog beta - dlog (beta - dlit 1%Q + dexp (b * t_cal)))).

Definition customer_L2 (r b s alpha beta x Integral : num) : num :=
  (dlgamma (r + x) - dlgamma r)
  + (dlog b + r * dlog alpha + dlog s + s * dlog beta + dlog Integral).

Definition customer_LL (r b s alpha beta x t_x t_cal : num) : num :=
  let Integral := result (qags_call r b s alpha beta x t_x t_cal) in
  dlog (dexp (customer_L1 r b s alpha beta x t_cal)
        + dexp (customer_L2 r b s alpha beta x Integral)).

(** The batch the kernel returns when every size conforms. *)
Definition batch_LL (r b s : num) (vAlpha_i vBeta_i vX vT_x vT_cal : vec num)
  : vec num :=
  map (fun i => customer_LL r b s (elem vAlpha_i i) (elem vBeta_i i)
                            (elem vX i) (elem vT_x i) (elem vT_cal i))
      (seq 0 (length vX)).

(** The lines the heuristic of lines 49-58 prints. *)
Definition divergence_messages (r b s : num)
    (vAlpha_i vBeta_i vX vT_x : vec num) : list (message num) :=
  match lower_boundary r b s vAlpha_i vBeta_i vX vT_x,
        upper_boundary r b s vAlpha_i vBeta_i vX vT_x with
  | Ok below, Ok above =>
      (if below == dlit 0%Q then [LowerBoundaryZero] else [])
      ++ (if above >? dpow (dlit 10%Q) (dlit 200%Q)
          then [UpperBoundary above] else [])
  | _, _ => []
  end.

(** The sizes under which the kernel runs to its end. *)
Definition conforming (vAlpha_i vBeta_i vX vT_x vT_cal : vec num) : Prop :=
  1 <= length vX /\
  length vAlpha_i = length vX /\
  length vBeta_i = length vX /\
  length vT_cal = length vX /\
  length vX <= length vT_x.

Definition conformingb (vAlpha_i vBeta_i vX vT_x vT_cal : vec num) : bool :=
  (1 <=? length vX) && (length vAlpha_i =? length vX)
  && (length vBeta_i =? length vX) && (length vT_cal =? length vX)
  && (length vX <=? length vT_x).

(** Negated sum of what the individual entry point returns. *)
Definition negated_sum (run : Result (vec num) * World num)
  : Result num * World num :=
  (match fst run with
   | Ok vLL => Ok (- arma_sum vLL)
   | Err e => Err e
   end, snd run).

End Customer.

(** ** The layout of the covariate parameter vector *)

Section Layout.
Context {num : Type} {DN : Double num}.

(** The coefficient vectors the covariate variant cuts out of
    [vParams]. *)
Definition life_params (vParams : vec num) (mCov_life : mat num) : vec num :=
  firstn (n_cols mCov_life) (skipn 5 vParams).

Definition trans_params (vParams : vec num) (mCov_life mCov_trans : mat num)
  : vec num :=
  firstn (n_cols mCov_trans) (skipn (5 + n_cols mCov_life) vParams).

(** The column counts and the length of [vParams] under which the
    covariate variant decodes its parameters. *)
Definition layout_ok (vParams : vec num) (mCov_life mCov_trans : mat num)
  : bool :=
  (1 <=? n_cols mCov_life) && (1 <=? n_cols mCov_trans)
  && (5 + n_cols mCov_life + n_cols mCov_trans <=? length vParams).

End Layout.


(** ** Integrators and process states for the examples *)

Section Examples.
Context {num : Type} {DN : Double num}.
Local Open Scope double_scope.

(** An integrator that returns the estimate [v] and reports the status
    [st], whatever it is asked. *)
Definition fixed_estimate (st : gsl_status) (v : num) : integrator num :=
  fun _ _ _ _ _ _ _ => {| status := st; result := v; abserr := dlit 0%Q |}.

(** A one-panel rectangle rule that reports the status [st]. *)
Definition rectangle_rule (st : gsl_status) : integrator num :=
  fun f a b _ _ _ _ =>
    {| status := st; result := (b - a) * f a; abserr := dlit 0%Q |}.

(** The integrator [q], reporting [st] whatever [q] reports. *)
Definition with_status (st : gsl_status) (q : integrator num)
  : integrator num :=
  fun f a b epsabs epsrel limit size =>
    {| status := st;
       result := result (q f a b epsabs epsrel limit size);
       abserr := abserr (q f a b epsabs epsrel limit size) |}.

(** The globals as lines 11-14 initialise them. *)
Definition initial_world : World num :=
  {| globals := {| gpvX := []; gpvAlpha_i := []; gpvBeta_i := [];
                   globI := 0; r_glob := dlit 0%Q; b_glob := dlit 0%Q;
                   s_glob := dlit 0%Q |};
     rcout := [] |}.

(** A covariate matrix with one row and one column. *)
Definition one_by_one (c : num) : mat num :=
  {| n_rows := 1; n_cols := 1; mem := [c] |}.

End Examples.

(** ** The stabilised combination of the specification *)

Section Stabilised.
Context {num : Type} {DN : Double num}.
Local Open Scope double_scope.

Definition dmax (a b : num) : num := if a >? b then a else b.

Definition dabs (a : num) : num := if dlit 0%Q >? a then - a else a.

Definition dlog1p (a : num) : num := dlog (dlit 1%Q + a).

(** The combination as the specification words it:
    [max(L1, L2) + log1p(exp(-|L1 - L2|))].  The source has no such
    expression; it is defined here to be compared with line 94. *)
Definition stabilised_LL (L1 L2 : num) : num :=
  dmax L1 L2 + dlog1p (dexp (- dabs (L1 - L2))).

End Stabilised.

(** ** Binary64 arithmetic *)

(** [double] as IEEE 754 binary64: the arithmetic and the comparisons are
    the machine's.  The C library is not part of the repository; [exp],
    [log], [pow] and [lgamma] below stand in for it.  They follow it on
    the special values (NaN, infinities, signed zeros, overflow to
    infinity above [exp 709.78], underflow to zero) and agree with it to
    about twelve digits on finite arguments; [pow] takes a negative base
    to an integer power as C99 has it, and [lgamma] covers non-negative
    arguments only, which is all the evaluators pass to it. *)
Module Binary64.

Definition of_Z (z : Z) : float :=
  match z with
  | Z0 => 0%float
  | Zpos _ => of_uint63 (Uint63.of_Z z)
  | Zneg p => (- of_uint63 (Uint63.of_Z (Zpos p)))%float
  end.

(** A literal is the quotient of two integers, correctly rounded. *)
Definition lit (q : Q) : float := (of_Z (Qnum q) / of_Z (Zpos (Qden q)))%float.

(** [1 + x/k (1 + x/(k+1) (1 + ...))]: the exponential series. *)
Fixpoint exp_series (x : float) (k n : nat) : float :=
  match n with
  | O => 1%float
  | S n' => (1 + x / of_Z (Z.of_nat k) * exp_series x (S k) n')%float
  end.

Fixpoint square_times (n : nat) (y : float) : float :=
  match n with
  | O => y
  | S n' => square_times n' (y * y)%float
  end.

(** [exp x = (exp (x / 1024)) ^ 1024]. *)
Definition exp (x : float) : float :=
  if is_nan x then nan
  else if (710 <? x)%float then infinity
  else if (x <? -746)%float then 0%float
  else square_times 10 (exp_series (x / 1024)%float 1 18).

(** [1/k + z2 (1/(k+2) + z2 (...))]: the series of [atanh z / z]. *)
Fixpoint atanh_series (z2 : float) (k n : nat) : float :=
  match n with
  | O => 0%float
  | S n' => (1 / of_Z (Z.of_nat k) + z2 * atanh_series z2 (S (S k)) n')%float
  end.

Definition ln2 : float := 0x1.62e42fefa39efp-1%float.

Definition sqrt_half : float := 0x1.6a09e667f3bcdp-1%float.

(** [log (m 2^e) = e log 2 + 2 atanh ((m - 1) / (m + 1))]. *)
Definition log (x : float) : float :=
  if is_nan x then nan
  else if (x <? 0)%float then nan
  else if (x =? 0)%float then neg_infinity
  else if (x =? infinity)%float then infinity
  else
    let (m, e) := Z.frexp x in
    let (m, e) :=
      if (m <? sqrt_half)%float then ((2 * m)%float, (e - 1)%Z) else (m, e) in
    let z := ((m - 1) / (m + 1))%float in
    (of_Z e * ln2 + 2 * z * atanh_series (z * z) 1 20)%float.

Definition two52 : float := 0x1p52%float.

(** Whether [y], not a NaN, has no fractional part; infinities count. *)
Definition is_integer (y : float) : bool :=
  let a := abs y in
  if (a <? two52)%float then (a + two52 - two52 =? a)%float else true.

Definition is_odd (y : float) : bool :=
  (abs y <? 2 * two52)%float && is_integer y && negb (is_integer (y / 2)).

(** The sign bit of [x], not a NaN. *)
Definition is_negative (x : float) : bool :=
  (x <? 0)%float || ((x =? 0)%float && (1 / x <? 0)%float).

(** [pow x y = exp (y log x)] for a positive base.  A negative base has a
    power only for an integer [y], negated when [y] is odd; the zeros
    and the infinities have one for every [y]. *)
Definition pow (x y : float) : float :=
  if (y =? 0)%float then 1%float
  else if (x =? 1)%float then 1%float
  else if is_nan x || is_nan y then nan
  else
    let a := abs x in
    let magnitude :=
      if (a =? 0)%float then (if (y <? 0)%float then infinity else 0%float)
      else if (a =? 1)%float then 1%float
      else exp (y * log a) in
    if is_negative x
    then if is_integer y || (a =? 0)%float || (a =? infinity)%float
         then (if is_odd y then - magnitude else magnitude)%float
         else nan
    else magnitude.

Definition half_log_two_pi : float := 0x1.d67f1c864beb5p-1%float.

(** Stirling's series, for arguments from ten on.  Beyond [2^1000] the
    correction terms vanish and the leading terms are grouped so that
    they overflow only where the value does. *)
Definition stirling (x : float) : float :=
  if (0x1p1000 <? x)%float
  then (x * (log x - 1) - 0.5 * log x + half_log_two_pi)%float
  else
    let i := (1 / x)%float in
    let i2 := (i * i)%float in
    ((x - 0.5) * log x - x + half_log_two_pi
     + i * (1 / 12 - i2 * (1 / 360 - i2 * (1 / 1260 - i2 * (1 / 1680)))))%float.

(** [lgamma x = lgamma (x + 1) - log x], up to ten. *)
Fixpoint lgamma_up (fuel : nat) (x logs : float) : float :=
  match fuel with
  | O => (stirling x - logs)%float
  | S fuel' =>
      if (x <? 10)%float then lgamma_up fuel' (x + 1)%float (logs + log x)%float
      else (stirling x - logs)%float
  end.

Definition lgamma (x : float) : float :=
  if is_nan x then nan
  else if (x <? 0)%float then nan
  else if (x =? 0)%float then infinity
  else if (x =? infinity)%float then infinity
  else lgamma_up 10 x 0%float.

#[global] Instance double : Double float := {|
  dlit := lit;
  dadd := PrimFloat.add;
  dsub := PrimFloat.sub;
  dmul := PrimFloat.mul;
  dneg := PrimFloat.opp;
  deqb := PrimFloat.eqb;
  dgtb := fun a b => PrimFloat.ltb b a;
  dexp := exp;
  dlog := log;
  dpow := pow;
  dlgamma := lgamma
|}.

End Binary64.

(** ** Which exception the kernel raises *)

Section KernelError.
Context {num : Type} {DN : Double num}.

(** The exception of a kernel call on sizes that do not conform: the
    heuristic of lines 49-50 meets an empty vector first, then the loop
    of lines 70-73 a missing entry, then lines 88-94 operands of
    different sizes. *)
Definition kernel_error (vAlpha_i vBeta_i vX vT_x vT_cal : vec num) : error :=
  let n := length vX in
  if (length vT_x =? 0) || (length vAlpha_i =? 0) || (n =? 0)
     || (length vBeta_i =? 0)
  then NoElements
  else if (length vT_x <? n) || (length vT_cal <? n)
          || (length vAlpha_i <? n) || (length vBeta_i <? n)
  then IndexOutOfBounds
  else IncompatibleDimensions.

(** The first customer one of the vectors the loop reads has no entry
    for. *)
Definition first_missing (vAlpha_i vBeta_i vT_x vT_cal : vec num) : nat :=
  Nat.min (Nat.min (length vT_x) (length vT_cal))
          (Nat.min (length vAlpha_i) (length vBeta_i)).

End KernelError.

(** ** A batch as a list of customers *)

(** The data of one customer of the variant without covariates. *)
Record customer (num : Type) : Type := {
  c_x : num;
  c_t_x : num;
  c_t_cal : num
}.

(** ** Vectors, element by element *)

Section VectorFacts.
Context {num : Type} {DN : Double num}.

Lemma vec_at_elem (v : vec num) (i : nat) :
  i < length v -> vec_at v i = Ok (elem v i).
Proof.
  intros Hi. unfold vec_at, elem.
  destruct (nth_error v i) as [x|] eqn:E.
  - f_equal. symmetry. now apply nth_error_nth.
  - apply nth_error_None in E. lia.
Qed.

Lemma vec_at_outside (v : vec num) (i : nat) :
  length v <= i -> vec_at v i = Err IndexOutOfBounds.
Proof.
  intros Hi. unfold vec_at.
  now apply nth_error_None in Hi; rewrite Hi.
Qed.

Lemma vec_eta (v : vec num) : v = map (elem v) (seq 0 (length v)).
Proof.
  apply nth_ext with (d := dlit 0%Q) (d' := dlit 0%Q).
  - now rewrite length_map, length_seq.
  - intros i Hi.
    rewrite (nth_indep (map (elem v) (seq 0 (length v)))
                       (dlit 0%Q) (elem v 0))
      by now rewrite length_map, length_seq.
    rewrite map_nth, seq_nth by assumption. reflexivity.
Qed.

Lemma zip_with_map (f : num -> num -> num) (g h : nat -> num) (l : list nat) :
  zip_with f (map g l) (map h l) = map (fun i => f (g i) (h i)) l.
Proof. induction l as [|i l IH]; simpl; now rewrite ?IH. Qed.

Lemma zip_with_length (f : num -> num -> num) (v w : vec num) :
  length (zip_with f v w) = Nat.min (length v) (length w).
Proof.
  revert w; induction v as [|x v IH]; intros [|y w]; simpl; auto.
Qed.

Lemma vec_zip_map (f : num -> num -> num) (g h : nat -> num) (l : list nat) :
  vec_zip f (map g l) (map h l) = Ok (map (fun i => f (g i) (h i)) l).
Proof.
  unfold vec_zip. rewrite !length_map, Nat.eqb_refl.
  now rewrite zip_with_map.
Qed.

Lemma vec_zip_ok (f : num -> num -> num) (v w u : vec num) :
  vec_zip f v w = Ok u -> length v = length w /\ length u = length v.
Proof.
  unfold vec_zip. destruct (length v =? length w) eqn:E; [|discriminate].
  apply Nat.eqb_eq in E. intros [= <-].
  rewrite zip_with_length. lia.
Qed.

Lemma vec_max_ok (v : vec num) :
  v <> [] -> exists m, vec_max v = Ok m.
Proof. destruct v; [congruence|]. intros _. now eexists. Qed.

Lemma vec_min_ok (v : vec num) :
  v <> [] -> exists m, vec_min v = Ok m.
Proof. destruct v; [congruence|]. intros _. now eexists. Qed.

End VectorFacts.

(** ** The kernel, step by step *)

Section KernelFacts.
Context {num : Type} {DN : Double num}.
Variable qags : integrator num.
Local Open Scope double_scope.

Lemma with_globI_same (g : Globals num) : with_globI g (globI g) = g.
Proof. now destruct g. Qed.

(** The loop of lines 70-73 calls the integrator once per customer, on
    that customer's integrand and interval, and leaves the console as
    it was. *)
Lemma integration_loop_run (vT_x vT_cal : vec num) :
  forall (todo : nat) (acc : vec num) (g : Globals num)
         (out : list (message num)),
    globI g + todo <= length vT_x ->
    globI g + todo <= length vT_cal ->
    globI g + todo <= length (gpvAlpha_i g) ->
    globI g + todo <= length (gpvX g) ->
    globI g + todo <= length (gpvBeta_i g) ->
    integration_loop qags todo vT_x vT_cal acc
                     {| globals := g; rcout := out |}
    = (Ok (acc ++ map (fun i =>
               result (qags_call qags (r_glob g) (b_glob g) (s_glob g)
                         (elem (gpvAlpha_i g) i) (elem (gpvBeta_i g) i)
                         (elem (gpvX g) i) (elem vT_x i) (elem vT_cal i)))
             (seq (globI g) todo)),
       {| globals := with_globI g (globI g + todo); rcout := out |}).
Proof.
  induction todo as [|todo IH]; intros acc g out H1 H2 H3 H4 H5.
  - simpl. unfold ret.
    now rewrite app_nil_r, Nat.add_0_r, with_globI_same.
  - cbn [integration_loop]. unfold bind at 1. cbn [get_globals globals].
    unfold bind at 1, lift at 1.
    rewrite (@vec_at_elem _ _ vT_x) by lia.
    unfold bind at 1, lift at 1.
    rewrite (@vec_at_elem _ _ vT_cal) by lia.
    unfold bind at 1, lift at 1.
    rewrite (@vec_at_elem _ _ (gpvAlpha_i g)) by lia.
    unfold bind at 1, lift at 1.
    rewrite (@vec_at_elem _ _ (gpvX g)) by lia.
    unfold bind at 1, lift at 1.
    rewrite (@vec_at_elem _ _ (gpvBeta_i g)) by lia.
    unfold bind at 1, set_globI, bind at 1.
    cbn [get_globals set_globals globals rcout].
    rewrite IH by (cbn [with_globI globI gpvAlpha_i gpvX gpvBeta_i]; lia).
    cbn [with_globI globI gpvAlpha_i gpvX gpvBeta_i r_glob b_glob s_glob
         seq map].
    rewrite <- app_assoc. cbn [app].
    replace (S (globI g) + todo)%nat with (globI g + S todo)%nat by lia.
    reflexivity.
Qed.

End KernelFacts.

(** ** The kernel on conforming sizes *)

Section KernelRun.
Context {num : Type} {DN : Double num}.
Variable qags : integrator num.
Local Open Scope double_scope.

Lemma vec_eta_len (v : vec num) (n : nat) :
  length v = n -> map (elem v) (seq 0 n) = v.
Proof. intros <-. symmetry. apply vec_eta. Qed.

Lemma map_elem (f : num -> num) (v : vec num) :
  map f v = map (fun i => f (elem v i)) (seq 0 (length v)).
Proof. now rewrite (vec_eta v) at 1; rewrite map_map. Qed.

Lemma L1_terms_map (r b s : num) (fa fb fx ft : nat -> num) (l : list nat) :
  L1_terms r b s (map fa l) (map fb l) (map fx l) (map ft l)
  = Ok (map (fun i =>
          r * (dlog (fa i) - dlog (fa i + ft i))
          + fx i * (dlit 0%Q - dlog (fa i + ft i))
          + s * (dlog (fb i) - dlog (fb i - dlit 1%Q + dexp (b * ft i)))) l).
Proof.
  unfold L1_terms, vec_add, vec_sub, vec_schur.
  repeat (rewrite ?map_map; rewrite vec_zip_map; cbn [rbind]).
  reflexivity.
Qed.

Lemma L2_terms_map (r b s : num) (fa fb fi : nat -> num) (l : list nat) :
  L2_terms r b s (map fa l) (map fb l) (map fi l)
  = Ok (map (fun i =>
          dlog b + r * dlog (fa i) + dlog s + s * dlog (fb i)
          + dlog (fi i)) l).
Proof.
  unfold L2_terms, vec_add.
  repeat (rewrite ?map_map; rewrite vec_zip_map; cbn [rbind]).
  reflexivity.
Qed.

Lemma log_likelihood_map (r b s : num) (fa fb fx ft fi : nat -> num)
    (l : list nat) :
  log_likelihood r b s (map fa l) (map fb l) (map fx l) (map ft l) (map fi l)
  = Ok (map (fun i =>
          dlog (dexp (customer_L1 r b s (fa i) (fb i) (fx i) (ft i))
                + dexp (customer_L2 r b s (fa i) (fb i) (fx i) (fi i)))) l).
Proof.
  unfold log_likelihood, vec_add.
  rewrite L1_terms_map, L2_terms_map. cbn [rbind].
  repeat (rewrite ?map_map; rewrite vec_zip_map; cbn [rbind]).
  rewrite map_map. reflexivity.
Qed.

Lemma boundaries_ok (r b s : num) (vAlpha_i vBeta_i vX vT_x : vec num) :
  vAlpha_i <> [] -> vBeta_i <> [] -> vX <> [] -> vT_x <> [] ->
  exists below above,
    lower_boundary r b s vAlpha_i vBeta_i vX vT_x = Ok below /\
    upper_boundary r b s vAlpha_i vBeta_i vX vT_x = Ok above.
Proof.
  destruct vAlpha_i, vBeta_i, vX, vT_x; try congruence; intros _ _ _ _.
  now eexists _, _.
Qed.

Lemma when_print_run (c : bool) (m : message num) (g : Globals num)
    (out : list (message num)) :
  when c (print m) {| globals := g; rcout := out |}
  = (Ok tt, {| globals := g; rcout := out ++ (if c then [m] else []) |}).
Proof.
  destruct c; cbn [when print ret globals rcout]; [reflexivity|].
  unfold ret. now rewrite app_nil_r.
Qed.

Lemma conforming_nonempty (vAlpha_i vBeta_i vX vT_x vT_cal : vec num) :
  conforming vAlpha_i vBeta_i vX vT_x vT_cal ->
  vAlpha_i <> [] /\ vBeta_i <> [] /\ vX <> [] /\ vT_x <> [].
Proof.
  intros (H1 & H2 & H3 & H4 & H5).
  repeat split; intros ->; simpl in *; lia.
Qed.

Theorem ggomnbd_LL_ind_run (r b s : num)
    (vAlpha_i vBeta_i vX vT_x vT_cal : vec num) (w : World num) :
  conforming vAlpha_i vBeta_i vX vT_x vT_cal ->
  ggomnbd_LL_ind qags r b s vAlpha_i vBeta_i vX vT_x vT_cal w
  = (Ok (batch_LL qags r b s vAlpha_i vBeta_i vX vT_x vT_cal),
     {| globals := {| gpvX := vX; gpvAlpha_i := vAlpha_i;
                      gpvBeta_i := vBeta_i; globI := length vX;
                      r_glob := r; b_glob := b; s_glob := s |};
        rcout := rcout w
                 ++ divergence_messages r b s vAlpha_i vBeta_i vX vT_x |}).
Proof.
  intros Hc.
  destruct (conforming_nonempty Hc) as (Na & Nb & Nx & Nt).
  destruct (boundaries_ok r b s Na Nb Nx Nt) as (below & above & Hlo & Hup).
  destruct Hc as (H1 & H2 & H3 & H4 & H5).
  destruct w as [g out].
  unfold ggomnbd_LL_ind, divergence_messages.
  rewrite Hlo, Hup.
  unfold bind at 1. cbn [get_globals globals].
  unfold bind at 1. cbn [set_globals globals rcout].
  unfold bind at 1, lift at 1.
  unfold bind at 1, lift at 1.
  unfold bind at 1. rewrite when_print_run.
  unfold bind at 1. rewrite when_print_run. rewrite <- app_assoc.
  unfold bind at 1, set_globI, bind at 1.
  cbn [get_globals set_globals globals rcout with_globI gpvX gpvAlpha_i
       gpvBeta_i r_glob b_glob s_glob].
  unfold bind at 1.
  cbv [with_globI].
  cbn [globI gpvX gpvAlpha_i gpvBeta_i r_glob b_glob s_glob].
  rewrite integration_loop_run
    by (cbn [globI gpvX gpvAlpha_i gpvBeta_i]; lia).
  cbv [with_globI].
  cbn [with_globI globI gpvAlpha_i gpvX gpvBeta_i r_glob b_glob s_glob app
       Nat.add].
  set (n := length vX) in *. unfold lift.
replace (log_likelihood r b s vAlpha_i vBeta_i vX vT_cal)
  with (log_likelihood r b s (map (elem vAlpha_i) (seq 0 n))
          (map (elem vBeta_i) (seq 0 n)) (map (elem vX) (seq 0 n))
          (map (elem vT_cal) (seq 0 n)))
  by (f_equal; now apply vec_eta_len).
rewrite log_likelihood_map. reflexivity.
Qed.

End KernelRun.

(** ** When the kernel fails *)

Section KernelFailure.
Context {num : Type} {DN : Double num}.
Variable qags : integrator num.
Local Open Scope double_scope.

Lemma vec_max_nil_iff (v : vec num) : is_ok (vec_max v) = negb (length v =? 0).
Proof. now destruct v. Qed.

Lemma vec_min_nil_iff (v : vec num) : is_ok (vec_min v) = negb (length v =? 0).
Proof. now destruct v. Qed.

Lemma lower_boundary_ok (r b s : num) (vAlpha_i vBeta_i vX vT_x : vec num) :
  is_ok (lower_boundary r b s vAlpha_i vBeta_i vX vT_x)
  = negb (length vT_x =? 0) && negb (length vAlpha_i =? 0)
    && negb (length vX =? 0) && negb (length vBeta_i =? 0).
Proof. now destruct vT_x, vAlpha_i, vX, vBeta_i. Qed.

(** Whatever is missing, the heuristic raises the same exception. *)
Lemma lower_boundary_err (r b s : num) (vAlpha_i vBeta_i vX vT_x : vec num)
    (e : error) :
  lower_boundary r b s vAlpha_i vBeta_i vX vT_x = Err e -> e = NoElements.
Proof.
  unfold lower_boundary.
  destruct vT_x, vAlpha_i, vX, vBeta_i; cbn [vec_max vec_min rbind];
    intros [=]; congruence.
Qed.

Lemma upper_boundary_ok (r b s : num) (vAlpha_i vBeta_i vX vT_x : vec num) :
  is_ok (upper_boundary r b s vAlpha_i vBeta_i vX vT_x)
  = is_ok (lower_boundary r b s vAlpha_i vBeta_i vX vT_x).
Proof. now destruct vT_x, vAlpha_i, vX, vBeta_i. Qed.

Lemma bind_lift_ok {A B} (a : A) (f : A -> M num B) (w : World num) :
  bind (lift (Ok a)) f w = f a w.
Proof. reflexivity. Qed.

Lemma bind_lift_err {A B} (e : error) (f : A -> M num B) (w : World num) :
  bind (lift (Err e)) f w = (Err e, w).
Proof. reflexivity. Qed.

Lemma bind_get {B} (f : Globals num -> M num B) (w : World num) :
  bind get_globals f w = f (globals w) w.
Proof. reflexivity. Qed.

Lemma bind_set {B} (g : Globals num) (f : unit -> M num B) (w : World num) :
  bind (set_globals g) f w = f tt {| globals := g; rcout := rcout w |}.
Proof. reflexivity. Qed.

Lemma bind_set_globI {B} (i : nat) (f : unit -> M num B) (w : World num) :
  bind (set_globI i) f w
  = f tt {| globals := with_globI (globals w) i; rcout := rcout w |}.
Proof. reflexivity. Qed.

(** The loop never prints. *)
Lemma integration_loop_rcout (vT_x vT_cal : vec num) :
  forall (todo : nat) (acc : vec num) (w : World num),
    rcout (snd (integration_loop qags todo vT_x vT_cal acc w)) = rcout w.
Proof.
  induction todo as [|todo IH]; intros acc w; [reflexivity|].
  cbn [integration_loop]. rewrite bind_get.
  repeat match goal with
         | |- context [bind (lift ?x) _ _] =>
             destruct x; rewrite ?bind_lift_ok, ?bind_lift_err;
             [|reflexivity]
         end.
  rewrite bind_set_globI, IH. reflexivity.
Qed.

(** The loop reads the world only through the globals. *)
Lemma integration_loop_frame (vT_x vT_cal : vec num) :
  forall (todo : nat) (acc : vec num) (g : Globals num)
         (out out' : list (message num)),
    fst (integration_loop qags todo vT_x vT_cal acc
           {| globals := g; rcout := out |})
    = fst (integration_loop qags todo vT_x vT_cal acc
             {| globals := g; rcout := out' |}).
Proof.
  induction todo as [|todo IH]; intros acc g out out'; [reflexivity|].
  cbn [integration_loop]. rewrite !bind_get. cbn [globals].
  repeat match goal with
         | |- context [bind (lift ?x) _ _] =>
             destruct x; rewrite ?bind_lift_ok, ?bind_lift_err;
             [|reflexivity]
         end.
  rewrite !bind_set_globI. cbn [globals rcout]. apply IH.
Qed.

(** The loop runs to its end only if every vector it reads has an entry
    for every customer. *)
Lemma integration_loop_ok (vT_x vT_cal : vec num) :
  forall (todo : nat) (acc : vec num) (g : Globals num)
         (out : list (message num)),
    is_ok (fst (integration_loop qags todo vT_x vT_cal acc
                  {| globals := g; rcout := out |})) = true ->
    todo = 0 \/
    (globI g + todo <= length vT_x /\
     globI g + todo <= length vT_cal /\
     globI g + todo <= length (gpvAlpha_i g) /\
     globI g + todo <= length (gpvX g) /\
     globI g + todo <= length (gpvBeta_i g)).
Proof.
  induction todo as [|todo IH]; intros acc g out Hok; [now left|right].
  revert Hok.
  cbn [integration_loop]. rewrite bind_get. cbn [globals].
  destruct (le_lt_dec (length vT_x) (globI g)) as [L|L];
    [now rewrite vec_at_outside|rewrite vec_at_elem by assumption].
  rewrite bind_lift_ok.
  destruct (le_lt_dec (length vT_cal) (globI g)) as [L1|L1];
    [now rewrite vec_at_outside|rewrite vec_at_elem by assumption].
  rewrite bind_lift_ok.
  destruct (le_lt_dec (length (gpvAlpha_i g)) (globI g)) as [L2|L2];
    [now rewrite vec_at_outside|rewrite vec_at_elem by assumption].
  rewrite bind_lift_ok.
  destruct (le_lt_dec (length (gpvX g)) (globI g)) as [L3|L3];
    [now rewrite vec_at_outside|rewrite vec_at_elem by assumption].
  rewrite bind_lift_ok.
  destruct (le_lt_dec (length (gpvBeta_i g)) (globI g)) as [L4|L4];
    [now rewrite vec_at_outside|rewrite vec_at_elem by assumption].
  rewrite bind_lift_ok, bind_set_globI. cbn [globals rcout].
  intros Hok. apply IH in Hok.
  cbv [with_globI] in Hok.
  cbn [globI gpvAlpha_i gpvX gpvBeta_i] in Hok.
  destruct Hok as [->|Hok]; lia.
Qed.

Lemma L1_terms_ok (r b s : num) (vAlpha_i vBeta_i vX vT_cal t : vec num) :
  L1_terms r b s vAlpha_i vBeta_i vX vT_cal = Ok t ->
  length vAlpha_i = length vT_cal /\
  length vX = length vAlpha_i /\
  length vBeta_i = length vT_cal.
Proof.
  unfold L1_terms, vec_add, vec_sub, vec_schur.
  repeat match goal with
         | |- rbind ?x _ = Ok _ -> _ =>
             let E := fresh "E" in
             destruct x eqn:E; cbn [rbind]; [|discriminate];
             apply vec_zip_ok in E; rewrite ?length_map in E
         end.
  intros _. lia.
Qed.

Lemma bind_when_print {B} (c : bool) (m : message num)
    (f : unit -> M num B) (g : Globals num) (out : list (message num)) :
  bind (when c (print m)) f {| globals := g; rcout := out |}
  = f tt {| globals := g; rcout := out ++ (if c then [m] else []) |}.
Proof. unfold bind. now rewrite when_print_run. Qed.

Lemma ggomnbd_LL_ind_ok_conforming (r b s : num)
    (vAlpha_i vBeta_i vX vT_x vT_cal : vec num) (w : World num) :
  is_ok (fst (ggomnbd_LL_ind qags r b s vAlpha_i vBeta_i vX vT_x vT_cal w))
  = true ->
  conforming vAlpha_i vBeta_i vX vT_x vT_cal.
Proof.
  destruct w as [g out]. unfold ggomnbd_LL_ind.
  rewrite bind_get, bind_set. cbn [globals rcout].
  pose proof (lower_boundary_ok r b s vAlpha_i vBeta_i vX vT_x) as Hlo.
  pose proof (upper_boundary_ok r b s vAlpha_i vBeta_i vX vT_x) as Hup.
  destruct (lower_boundary r b s vAlpha_i vBeta_i vX vT_x) as [below|];
    [rewrite bind_lift_ok|now rewrite bind_lift_err].
  destruct (upper_boundary r b s vAlpha_i vBeta_i vX vT_x) as [above|];
    [rewrite bind_lift_ok|discriminate].
  rewrite !bind_when_print, bind_set_globI. cbn [globals rcout].
  cbv [with_globI]. cbn [gpvX gpvAlpha_i gpvBeta_i r_glob b_glob s_glob].
  unfold bind at 1.
  match goal with
  | |- context [integration_loop ?q ?n ?a ?b ?c
                                 {| globals := ?G; rcout := ?O |}] =>
      pose proof (@integration_loop_ok a b n c G O) as Hloop;
      destruct (integration_loop q n a b c {| globals := G; rcout := O |})
        as [[vI|] w']
  end; [|discriminate].
  cbn [fst is_ok globI gpvX gpvAlpha_i gpvBeta_i] in Hloop.
  specialize (Hloop eq_refl).
  unfold lift, log_likelihood. cbn [fst].
  destruct (L1_terms r b s vAlpha_i vBeta_i vX vT_cal) as [t1|] eqn:E1;
    cbn [rbind is_ok]; [|discriminate].
  apply L1_terms_ok in E1. intros _.
  cbn [is_ok] in Hlo. symmetry in Hlo.
  rewrite !andb_true_iff, !negb_true_iff, !Nat.eqb_neq in Hlo.
  unfold conforming. destruct Hloop as [Hz|Hloop]; lia.
Qed.

(** The kernel runs to its end exactly on conforming sizes. *)
Lemma ggomnbd_LL_ind_ok (r b s : num)
    (vAlpha_i vBeta_i vX vT_x vT_cal : vec num) (w : World num) :
  is_ok (fst (ggomnbd_LL_ind qags r b s vAlpha_i vBeta_i vX vT_x vT_cal w))
  = conformingb vAlpha_i vBeta_i vX vT_x vT_cal.
Proof.
  destruct (conformingb vAlpha_i vBeta_i vX vT_x vT_cal) eqn:E.
  - unfold conformingb in E.
    rewrite !andb_true_iff, !Nat.eqb_eq, !Nat.leb_le in E.
    rewrite ggomnbd_LL_ind_run by (unfold conforming; tauto).
    reflexivity.
  - apply not_true_is_false. intros H.
    apply ggomnbd_LL_ind_ok_conforming in H.
    unfold conforming in H. unfold conformingb in E.
    rewrite <- !Nat.eqb_eq, <- !Nat.leb_le in H.
    destruct H as (H1 & H2 & H3 & H4 & H5).
    rewrite H1, H2, H3, H4, H5 in E. discriminate.
Qed.

End KernelFailure.

(** ** Decoding the parameters *)

Section ParameterFacts.
Context {num : Type} {DN : Double num}.

Lemma nocov_parameters_run (vLogparams vX : vec num) :
  5 <= length vLogparams ->
  nocov_parameters vLogparams vX
  = Ok {| p_r := dexp (elem vLogparams 0);
          p_alpha_0 := dexp (elem vLogparams 1);
          p_b := dexp (elem vLogparams 2);
          p_s := dexp (elem vLogparams 3);
          p_beta_0 := dexp (elem vLogparams 4);
          p_vAlpha_i := repeat (dexp (elem vLogparams 1)) (length vX);
          p_vBeta_i := repeat (dexp (elem vLogparams 4)) (length vX) |}.
Proof.
  intros H. unfold nocov_parameters.
  rewrite !vec_at_elem by lia. reflexivity.
Qed.

Lemma nocov_parameters_short (vLogparams vX : vec num) :
  length vLogparams < 5 ->
  nocov_parameters vLogparams vX = Err IndexOutOfBounds.
Proof.
  intros H. unfold nocov_parameters.
  destruct vLogparams as [|p0 [|p1 [|p2 [|p3 [|p4 rest]]]]];
    try reflexivity.
  simpl in H. lia.
Qed.

Lemma subvec_run (v : vec num) (first last : nat) :
  first <= last -> last < length v ->
  subvec v first last = Ok (firstn (last - first + 1) (skipn first v)).
Proof.
  intros H1 H2. unfold subvec.
  replace (last <? first) with false by (symmetry; apply Nat.ltb_ge; lia).
  replace (length v <=? last) with false
    by (symmetry; apply Nat.leb_gt; lia).
  reflexivity.
Qed.

Lemma subvec_outside (v : vec num) (first last : nat) :
  last < first \/ length v <= last ->
  subvec v first last = Err IndexOutOfBounds.
Proof.
  intros H. unfold subvec.
  destruct (last <? first) eqn:E1; [reflexivity|].
  destruct (length v <=? last) eqn:E2; [reflexivity|].
  apply Nat.ltb_ge in E1. apply Nat.leb_gt in E2. lia.
Qed.

Lemma staticcov_parameters_run (vParams : vec num)
    (mCov_life mCov_trans : mat num) :
  layout_ok vParams mCov_life mCov_trans = true ->
  staticcov_parameters vParams mCov_life mCov_trans
  = Ok {| p_r := dexp (elem vParams 0);
          p_alpha_0 := dexp (elem vParams 1);
          p_b := dexp (elem vParams 2);
          p_s := dexp (elem vParams 3);
          p_beta_0 := dexp (elem vParams 4);
          p_vAlpha_i :=
            map (fun i =>
                   dmul (dexp (elem vParams 1))
                     (dexp (dot (mat_row (mat_scale mCov_trans
                                            (dlit (-1)%Q)) i)
                                (trans_params vParams mCov_life
                                              mCov_trans))))
                (seq 0 (n_rows mCov_trans));
          p_vBeta_i :=
            map (fun i =>
                   dmul (dexp (elem vParams 4))
                     (dexp (dot (mat_row (mat_scale mCov_life
                                            (dlit (-1)%Q)) i)
                                (life_params vParams mCov_life))))
                (seq 0 (n_rows mCov_life)) |}.
Proof.
  unfold layout_ok. rewrite !andb_true_iff, !Nat.leb_le.
  intros [[Hl Ht] Hp]. unfold staticcov_parameters.
  rewrite !vec_at_elem by lia. cbn [rbind].
  rewrite subvec_run by lia. cbn [rbind].
  rewrite subvec_run by lia. cbn [rbind].
  replace (5 + n_cols mCov_life - 1 - 5 + 1) with (n_cols mCov_life) by lia.
  replace (5 + n_cols mCov_life + n_cols mCov_trans - 1
           - (5 + n_cols mCov_life) + 1) with (n_cols mCov_trans) by lia.
  unfold mat_vec. cbn [mat_scale n_cols n_rows].
  rewrite !length_firstn, !length_skipn.
  replace (n_cols mCov_trans
           =? Nat.min (n_cols mCov_trans)
                      (length vParams - (5 + n_cols mCov_life)))
    with true by (symmetry; apply Nat.eqb_eq; lia).
  replace (n_cols mCov_life
           =? Nat.min (n_cols mCov_life) (length vParams - 5))
    with true by (symmetry; apply Nat.eqb_eq; lia).
  cbn [rbind]. rewrite !map_map. reflexivity.
Qed.

Lemma staticcov_parameters_fail (vParams : vec num)
    (mCov_life mCov_trans : mat num) :
  layout_ok vParams mCov_life mCov_trans = false ->
  staticcov_parameters vParams mCov_life mCov_trans = Err IndexOutOfBounds.
Proof.
  unfold layout_ok. rewrite !andb_false_iff, !Nat.leb_gt.
  intros H. unfold staticcov_parameters.
  destruct (le_lt_dec 5 (length vParams)) as [L|L].
  - rewrite !vec_at_elem by lia. cbn [rbind].
    destruct (Nat.eq_dec (n_cols mCov_life) 0) as [Z|Z];
      [now rewrite subvec_outside by lia|].
    destruct (le_lt_dec (5 + n_cols mCov_life) (length vParams)) as [L1|L1];
      [|now rewrite subvec_outside by lia].
    rewrite subvec_run by lia. cbn [rbind].
    now rewrite subvec_outside by lia.
  - destruct vParams as [|p0 [|p1 [|p2 [|p3 [|p4 rest]]]]];
      try reflexivity.
    simpl in L. lia.
Qed.

Lemma staticcov_parameters_ok (vParams : vec num)
    (mCov_life mCov_trans : mat num) :
  is_ok (staticcov_parameters vParams mCov_life mCov_trans)
  = layout_ok vParams mCov_life mCov_trans.
Proof.
  destruct (layout_ok vParams mCov_life mCov_trans) eqn:E.
  - now rewrite staticcov_parameters_run.
  - now rewrite staticcov_parameters_fail.
Qed.

(** What either variant decodes, when it decodes. *)
Lemma decoded_parameters_shape (vParams vX : vec num)
    (mCov_life mCov_trans : mat num) (p : parameters (num := num)) :
  nocov_parameters vParams vX = Ok p
  \/ staticcov_parameters vParams mCov_life mCov_trans = Ok p ->
  (p_r p = dexp (elem vParams 0) /\ p_alpha_0 p = dexp (elem vParams 1)
   /\ p_b p = dexp (elem vParams 2) /\ p_s p = dexp (elem vParams 3)
   /\ p_beta_0 p = dexp (elem vParams 4))
  /\ (nocov_parameters vParams vX = Ok p ->
      p_vAlpha_i p = repeat (p_alpha_0 p) (length vX)
      /\ p_vBeta_i p = repeat (p_beta_0 p) (length vX))
  /\ (staticcov_parameters vParams mCov_life mCov_trans = Ok p ->
      p_vAlpha_i p
      = map (fun i =>
               dmul (p_alpha_0 p)
                 (dexp (dot (mat_row (mat_scale mCov_trans (dlit (-1)%Q)) i)
                            (trans_params vParams mCov_life mCov_trans))))
            (seq 0 (n_rows mCov_trans))
      /\ p_vBeta_i p
         = map (fun i =>
                  dmul (p_beta_0 p)
                    (dexp (dot (mat_row (mat_scale mCov_life (dlit (-1)%Q)) i)
                               (life_params vParams mCov_life))))
               (seq 0 (n_rows mCov_life))).
Proof.
  assert (N : forall q, nocov_parameters vParams vX = Ok q ->
                (p_r q = dexp (elem vParams 0)
                 /\ p_alpha_0 q = dexp (elem vParams 1)
                 /\ p_b q = dexp (elem vParams 2)
                 /\ p_s q = dexp (elem vParams 3)
                 /\ p_beta_0 q = dexp (elem vParams 4))
                /\ p_vAlpha_i q = repeat (p_alpha_0 q) (length vX)
                /\ p_vBeta_i q = repeat (p_beta_0 q) (length vX)).
  { intros q. destruct (le_lt_dec 5 (length vParams)) as [L|L].
    - rewrite nocov_parameters_run by assumption. intros [= <-].
      now repeat split.
    - now rewrite nocov_parameters_short. }
  assert (C : forall q,
             staticcov_parameters vParams mCov_life mCov_trans = Ok q ->
             (p_r q = dexp (elem vParams 0)
              /\ p_alpha_0 q = dexp (elem vParams 1)
              /\ p_b q = dexp (elem vParams 2)
              /\ p_s q = dexp (elem vParams 3)
              /\ p_beta_0 q = dexp (elem vParams 4))
             /\ p_vAlpha_i q
                = map (fun i =>
                         dmul (p_alpha_0 q)
                           (dexp (dot (mat_row (mat_scale mCov_trans
                                                  (dlit (-1)%Q)) i)
                                      (trans_params vParams mCov_life
                                                    mCov_trans))))
                      (seq 0 (n_rows mCov_trans))
             /\ p_vBeta_i q
                = map (fun i =>
                         dmul (p_beta_0 q)
                           (dexp (dot (mat_row (mat_scale mCov_life
                                                  (dlit (-1)%Q)) i)
                                      (life_params vParams mCov_life))))
                      (seq 0 (n_rows mCov_life))).
  { intros q. destruct (layout_ok vParams mCov_life mCov_trans) eqn:E.
    - rewrite staticcov_parameters_run by assumption. intros [= <-].
      now repeat split.
    - now rewrite staticcov_parameters_fail. }
  intros H. split; [|split].
  - destruct H as [H|H]; [exact (proj1 (N p H))|exact (proj1 (C p H))].
  - intros H'. exact (proj2 (N p H')).
  - intros H'. exact (proj2 (C p H')).
Qed.

End ParameterFacts.

(** ** The kernel and the process state *)

Section KernelState.
Context {num : Type} {DN : Double num}.
Variable qags : integrator num.
Local Open Scope double_scope.

(** What the kernel prints is the heuristic's lines, whether or not it
    runs to its end. *)
Lemma ggomnbd_LL_ind_rcout (r b s : num)
    (vAlpha_i vBeta_i vX vT_x vT_cal : vec num) (w : World num) :
  rcout (snd (ggomnbd_LL_ind qags r b s vAlpha_i vBeta_i vX vT_x vT_cal w))
  = rcout w ++ divergence_messages r b s vAlpha_i vBeta_i vX vT_x.
Proof.
  destruct w as [g out]. unfold ggomnbd_LL_ind, divergence_messages.
  rewrite bind_get, bind_set. cbn [globals rcout].
  destruct (lower_boundary r b s vAlpha_i vBeta_i vX vT_x) as [below|];
    [rewrite bind_lift_ok|now rewrite bind_lift_err, app_nil_r].
  destruct (upper_boundary r b s vAlpha_i vBeta_i vX vT_x) as [above|];
    [rewrite bind_lift_ok|now rewrite bind_lift_err, app_nil_r].
  rewrite !bind_when_print, bind_set_globI. cbn [globals rcout].
  unfold bind.
  match goal with
  | |- context [integration_loop ?q ?n ?a ?b ?c ?w] =>
      pose proof (integration_loop_rcout q a b n c w) as Hloop;
      destruct (integration_loop q n a b c w) as [[vI|] w']
  end; cbn [snd rcout lift] in *; rewrite Hloop; now rewrite <- app_assoc.
Qed.

(** What the kernel returns does not depend on the state it is entered
    with: every global it reads it has written first. *)
Lemma ggomnbd_LL_ind_state_free (r b s : num)
    (vAlpha_i vBeta_i vX vT_x vT_cal : vec num) (w w' : World num) :
  fst (ggomnbd_LL_ind qags r b s vAlpha_i vBeta_i vX vT_x vT_cal w)
  = fst (ggomnbd_LL_ind qags r b s vAlpha_i vBeta_i vX vT_x vT_cal w').
Proof.
  destruct w as [g out], w' as [g' out']. unfold ggomnbd_LL_ind.
  rewrite !bind_get, !bind_set. cbn [globals rcout].
  destruct (lower_boundary r b s vAlpha_i vBeta_i vX vT_x) as [below|];
    [rewrite !bind_lift_ok|now rewrite !bind_lift_err].
  destruct (upper_boundary r b s vAlpha_i vBeta_i vX vT_x) as [above|];
    [rewrite !bind_lift_ok|now rewrite !bind_lift_err].
  rewrite !bind_when_print, !bind_set_globI. cbn [globals rcout].
  cbv [with_globI]. cbn [gpvX gpvAlpha_i gpvBeta_i r_glob b_glob s_glob].
  unfold bind.
  match goal with
  | |- fst (match integration_loop ?q ?n ?a ?b ?c
                    {| globals := ?G; rcout := ?O |} with _ => _ end)
       = fst (match integration_loop _ _ _ _ _
                    {| globals := _; rcout := ?O' |} with _ => _ end) =>
      pose proof (integration_loop_frame q a b n c G O O') as Hloop;
      destruct (integration_loop q n a b c {| globals := G; rcout := O |})
        as [[vI|] w1];
      destruct (integration_loop q n a b c {| globals := G; rcout := O' |})
        as [[vI'|] w1']
  end; cbn [fst] in Hloop; try discriminate.
  - injection Hloop as ->. reflexivity.
  - exact Hloop.
Qed.

Lemma batch_LL_length (r b s : num)
    (vAlpha_i vBeta_i vX vT_x vT_cal : vec num) :
  length (batch_LL qags r b s vAlpha_i vBeta_i vX vT_x vT_cal) = length vX.
Proof. unfold batch_LL. now rewrite length_map, length_seq. Qed.

Lemma batch_LL_elem (r b s : num)
    (vAlpha_i vBeta_i vX vT_x vT_cal : vec num) (i : nat) :
  i < length vX ->
  nth_error (batch_LL qags r b s vAlpha_i vBeta_i vX vT_x vT_cal) i
  = Some (customer_LL qags r b s (elem vAlpha_i i) (elem vBeta_i i)
                      (elem vX i) (elem vT_x i) (elem vT_cal i)).
Proof.
  intros Hi. unfold batch_LL.
  rewrite nth_error_map, nth_error_nth' with (d := 0)
    by now rewrite length_seq.
  now rewrite seq_nth.
Qed.

(** The two variants share the kernel. *)
Lemma ggomnbd_nocov_LL_ind_unfold (vLogparams vX vT_x vT_cal : vec num)
    (w : World num) :
  ggomnbd_nocov_LL_ind qags vLogparams vX vT_x vT_cal w
  = match nocov_parameters vLogparams vX with
    | Ok p => ggomnbd_LL_ind qags (p_r p) (p_b p) (p_s p) (p_vAlpha_i p)
                             (p_vBeta_i p) vX vT_x vT_cal w
    | Err e => (Err e, w)
    end.
Proof. reflexivity. Qed.

Lemma ggomnbd_staticcov_LL_ind_unfold (vParams vX vT_x vT_cal : vec num)
    (mCov_life mCov_trans : mat num) (w : World num) :
  ggomnbd_staticcov_LL_ind qags vParams vX vT_x vT_cal mCov_life mCov_trans w
  = match staticcov_parameters vParams mCov_life mCov_trans with
    | Ok p => ggomnbd_LL_ind qags (p_r p) (p_b p) (p_s p) (p_vAlpha_i p)
                             (p_vBeta_i p) vX vT_x vT_cal w
    | Err e => (Err e, w)
    end.
Proof. reflexivity. Qed.

Lemma bind_ret_negated_sum (c : M num (vec num)) (w : World num) :
  bind c (fun vLL => ret (- arma_sum vLL)) w = negated_sum (c w).
Proof. unfold bind, negated_sum, ret. now destruct (c w) as [[v|e] w']. Qed.

(** The covariate variant runs to its end exactly when the parameter
    vector is long enough for the layout, both matrices have a column,
    and the sizes handed to the kernel conform. *)
Lemma ggomnbd_staticcov_LL_ind_ok (vParams vX vT_x vT_cal : vec num)
    (mCov_life mCov_trans : mat num) (w : World num) :
  is_ok (fst (ggomnbd_staticcov_LL_ind qags vParams vX vT_x vT_cal
                                       mCov_life mCov_trans w))
  = layout_ok vParams mCov_life mCov_trans
    && ((1 <=? length vX) && (n_rows mCov_trans =? length vX)
        && (n_rows mCov_life =? length vX) && (length vT_cal =? length vX)
        && (length vX <=? length vT_x)).
Proof.
  rewrite ggomnbd_staticcov_LL_ind_unfold.
  destruct (layout_ok vParams mCov_life mCov_trans) eqn:E.
  - rewrite staticcov_parameters_run by assumption.
    rewrite ggomnbd_LL_ind_ok. unfold conformingb.
    cbn [p_vAlpha_i p_vBeta_i]. now rewrite !length_map, !length_seq.
  - now rewrite staticcov_parameters_fail.
Qed.

Lemma ggomnbd_nocov_LL_ind_ok (vLogparams vX vT_x vT_cal : vec num)
    (w : World num) :
  is_ok (fst (ggomnbd_nocov_LL_ind qags vLogparams vX vT_x vT_cal w))
  = (5 <=? length vLogparams) && (1 <=? length vX)
    && (length vT_cal =? length vX) && (length vX <=? length vT_x).
Proof.
  rewrite ggomnbd_nocov_LL_ind_unfold.
  destruct (le_lt_dec 5 (length vLogparams)) as [L|L].
  - rewrite nocov_parameters_run by assumption.
    rewrite ggomnbd_LL_ind_ok. unfold conformingb.
    cbn [p_vAlpha_i p_vBeta_i]. rewrite !repeat_length, !Nat.eqb_refl.
    apply Nat.leb_le in L. rewrite L.
    now rewrite !andb_true_r.
  - rewrite nocov_parameters_short by assumption.
    apply Nat.leb_gt in L. now rewrite L.
Qed.

End KernelState.

(** ** Exact arithmetic: the facts the claims use *)

Section RealFacts.
Local Open Scope R_scope.

Lemma Q2R_zero : Q2R 0 = 0.
Proof. unfold Q2R; simpl; lra. Qed.

Lemma Q2R_one : Q2R 1 = 1.
Proof. unfold Q2R; simpl; lra. Qed.

Lemma Q2R_minus_one : Q2R (-1) = -1.
Proof. unfold Q2R; simpl; lra. Qed.

Lemma real_eqb_true (a b : R) : a = b -> (a == b)%D = true.
Proof. intros H. cbn. now destruct (Req_dec_T a b). Qed.

Lemma real_eqb_false (a b : R) : a <> b -> (a == b)%D = false.
Proof. intros H. cbn. now destruct (Req_dec_T a b). Qed.


Lemma real_gtb_false (a b : R) : ~ a > b -> (a >? b)%D = false.
Proof. intros H. cbn. now destruct (Rgt_dec a b). Qed.

(** [arma::sum] is the sum of the entries. *)
Lemma arma_sum_real (v : vec R) : arma_sum v = fold_right Rplus 0 v.
Proof.
  unfold arma_sum. cbn [dlit dadd Real]. rewrite Q2R_zero.
  rewrite <- fold_left_rev_right.
  assert (G : forall l a, fold_right (fun y x => x + y) a l
                          = a + fold_right Rplus 0 l).
  { induction l as [|x l IH]; intros a; simpl; [lra|]. rewrite IH. lra. }
  rewrite G.
  assert (P : forall l, fold_right Rplus 0 (rev l) = fold_right Rplus 0 l).
  { induction l as [|x l IH]; simpl; [reflexivity|].
    rewrite fold_right_app. simpl.
    assert (Q : forall l a, fold_right Rplus a l = fold_right Rplus 0 l + a).
    { clear. induction l as [|y l IH]; intros a; simpl; [lra|].
      rewrite IH. lra. }
    rewrite Q, IH. lra. }
  rewrite P. lra.
Qed.




End RealFacts.

(** ** Exact arithmetic: the heuristic on small batches *)

Section RealBoundaries.
Local Open Scope R_scope.

Lemma Rpower_base_one (y : R) : Rpower 1 y = 1.
Proof. unfold Rpower. now rewrite ln_1, Rmult_0_r, exp_0. Qed.


Lemma threshold_above_ten : 10 < Rpower (Q2R 10) (Q2R 200).
Proof.
  replace (Q2R 10) with 10 by (unfold Q2R; simpl; lra).
  replace (Q2R 200) with 200 by (unfold Q2R; simpl; lra).
  rewrite <- (Rpower_1 10) at 1 by lra.
  apply Rpower_lt; lra.
Qed.


(** One customer, every parameter equal to one: both boundaries are one
    and nothing is printed. *)
Lemma unit_batch_quiet :
  divergence_messages 1 1 1 [1] [1] [0] [0] = [].
Proof.
  unfold divergence_messages, lower_boundary, upper_boundary.
  cbn [vec_max vec_min fold_left rbind dlit dadd dsub dmul dneg dexp dpow Real].
  rewrite Q2R_one.
  replace (0 + 1) with 1 by lra.
  replace (1 * 0) with 0 by lra.
  rewrite exp_0.
  replace (1 + 1 - 1) with 1 by lra.
  rewrite !Rpower_base_one.
  replace (1 * 1 * 1) with 1 by lra.
  rewrite real_eqb_false by (rewrite Q2R_zero; lra).
  rewrite real_gtb_false; [reflexivity|].
  pose proof threshold_above_ten. lra.
Qed.













End RealBoundaries.

(** ** Further facts for the claims *)

Section ClaimFacts.
Context {num : Type} {DN : Double num}.
Variable qags : integrator num.
Local Open Scope double_scope.

Lemma lower_boundary_no_customers (r b s : num)
    (vAlpha_i vBeta_i vT_x : vec num) :
  lower_boundary r b s vAlpha_i vBeta_i [] vT_x = Err NoElements.
Proof. unfold lower_boundary. now destruct vT_x, vAlpha_i. Qed.

(** Without customers the kernel stops at the heuristic of line 49. *)
Lemma ggomnbd_LL_ind_no_customers (r b s : num)
    (vAlpha_i vBeta_i vT_x vT_cal : vec num) (w : World num) :
  fst (ggomnbd_LL_ind qags r b s vAlpha_i vBeta_i [] vT_x vT_cal w)
  = Err NoElements.
Proof.
  unfold ggomnbd_LL_ind. rewrite bind_get, bind_set.
  now rewrite lower_boundary_no_customers, bind_lift_err.
Qed.

Lemma negated_sum_fst_err (run : Result (vec num) * World num) (e : error) :
  fst run = Err e -> fst (negated_sum run) = Err e.
Proof. unfold negated_sum. now intros ->. Qed.

Lemma negated_sum_ok (run : Result (vec num) * World num) :
  is_ok (fst (negated_sum run)) = is_ok (fst run).
Proof. unfold negated_sum. now destruct (fst run). Qed.

(** The status the integrator reports is not read. *)
Lemma batch_LL_with_status (st : gsl_status) (r b s : num)
    (vAlpha_i vBeta_i vX vT_x vT_cal : vec num) :
  batch_LL (with_status st qags) r b s vAlpha_i vBeta_i vX vT_x vT_cal
  = batch_LL qags r b s vAlpha_i vBeta_i vX vT_x vT_cal.
Proof. reflexivity. Qed.

Lemma ggomnbd_nocov_LL_ind_state_free (vLogparams vX vT_x vT_cal : vec num)
    (w w' : World num) :
  fst (ggomnbd_nocov_LL_ind qags vLogparams vX vT_x vT_cal w)
  = fst (ggomnbd_nocov_LL_ind qags vLogparams vX vT_x vT_cal w').
Proof.
  rewrite !ggomnbd_nocov_LL_ind_unfold.
  destruct (nocov_parameters vLogparams vX); [|reflexivity].
  apply ggomnbd_LL_ind_state_free.
Qed.

Lemma ggomnbd_staticcov_LL_ind_state_free
    (vParams vX vT_x vT_cal : vec num) (mCov_life mCov_trans : mat num)
    (w w' : World num) :
  fst (ggomnbd_staticcov_LL_ind qags vParams vX vT_x vT_cal
                                mCov_life mCov_trans w)
  = fst (ggomnbd_staticcov_LL_ind qags vParams vX vT_x vT_cal
                                  mCov_life mCov_trans w').
Proof.
  rewrite !ggomnbd_staticcov_LL_ind_unfold.
  destruct (staticcov_parameters vParams mCov_life mCov_trans);
    [|reflexivity].
  apply ggomnbd_LL_ind_state_free.
Qed.

End ClaimFacts.

(** ** Exact arithmetic: the two combinations *)

Section RealCombination.
Local Open Scope R_scope.

Lemma log_sum_exp_shift (a d : R) : a + ln (1 + exp d) = ln (exp a + exp (a + d)).
Proof.
  rewrite exp_plus.
  replace (exp a + exp a * exp d) with (exp a * (1 + exp d)) by ring.
  pose proof (exp_pos a). pose proof (exp_pos d).
  rewrite ln_mult by lra. now rewrite ln_exp.
Qed.

(** In exact arithmetic the specification's combination and the one of
    line 94 have the same value. *)
Lemma real_stabilised (L1 L2 : R) :
  stabilised_LL L1 L2 = ln (exp L1 + exp L2).
Proof.
  unfold stabilised_LL, dmax, dabs, dlog1p.
  cbn [dlit dadd dsub dneg dgtb dexp dlog Real].
  rewrite Q2R_zero, Q2R_one.
  destruct (Rgt_dec L1 L2) as [G|G];
    destruct (Rgt_dec 0 (L1 - L2)) as [N|N]; try lra.
  - rewrite log_sum_exp_shift. f_equal. f_equal. f_equal. lra.
  - rewrite log_sum_exp_shift. rewrite Rplus_comm. f_equal. f_equal.
    f_equal. lra.
  - rewrite log_sum_exp_shift. rewrite Rplus_comm. f_equal. f_equal.
    f_equal. lra.
Qed.

End RealCombination.

(** ** Exact arithmetic: the extremes are the extremes *)

Section RealExtremes.
Local Open Scope R_scope.

Lemma real_running_max (t : vec R) :
  forall x : R,
    let m := fold_left (fun m y => if (y >? m)%D then y else m) t x in
    (m = x \/ In m t) /\ x <= m /\ forall y, In y t -> y <= m.
Proof.
  induction t as [|z t IH]; intros x; cbn [fold_left In].
  - split; [now left|]. split; [lra|]. intros y [].
  - destruct ((z >? x)%D) eqn:E; cbn [dgtb Real] in E;
      destruct (Rgt_dec z x) as [G|G]; try discriminate.
    + destruct (IH z) as (Hm & Hle & Hall).
      split; [destruct Hm as [Hm|Hm]; auto|].
      split; [lra|]. intros y [<-|Hy]; auto.
    + destruct (IH x) as (Hm & Hle & Hall).
      split; [destruct Hm as [Hm|Hm]; auto|].
      split; [lra|]. intros y [<-|Hy]; [lra|auto].
Qed.

Lemma real_running_min (t : vec R) :
  forall x : R,
    let m := fold_left (fun m y => if (m >? y)%D then y else m) t x in
    (m = x \/ In m t) /\ m <= x /\ forall y, In y t -> m <= y.
Proof.
  induction t as [|z t IH]; intros x; cbn [fold_left In].
  - split; [now left|]. split; [lra|]. intros y [].
  - destruct ((x >? z)%D) eqn:E; cbn [dgtb Real] in E;
      destruct (Rgt_dec x z) as [G|G]; try discriminate.
    + destruct (IH z) as (Hm & Hle & Hall).
      split; [destruct Hm as [Hm|Hm]; auto|].
      split; [lra|]. intros y [<-|Hy]; auto.
    + destruct (IH x) as (Hm & Hle & Hall).
      split; [destruct Hm as [Hm|Hm]; auto|].
      split; [lra|]. intros y [<-|Hy]; [lra|auto].
Qed.

(** [v.max()] is an entry of [v] that no entry exceeds. *)
Lemma real_vec_max_spec (v : vec R) (m : R) :
  vec_max v = Ok m -> In m v /\ forall y, In y v -> y <= m.
Proof.
  destruct v as [|x t]; [discriminate|]. cbn [vec_max]. intros [= <-].
  destruct (real_running_max t x) as (Hm & Hle & Hall).
  split; [destruct Hm as [Hm|Hm]; [now left|now right]|].
  intros y [<-|Hy]; auto.
Qed.

(** [v.min()] is an entry of [v] that exceeds no entry. *)
Lemma real_vec_min_spec (v : vec R) (m : R) :
  vec_min v = Ok m -> In m v /\ forall y, In y v -> m <= y.
Proof.
  destruct v as [|x t]; [discriminate|]. cbn [vec_min]. intros [= <-].
  destruct (real_running_min t x) as (Hm & Hle & Hall).
  split; [destruct Hm as [Hm|Hm]; [now left|now right]|].
  intros y [<-|Hy]; auto.
Qed.

End RealExtremes.

(** * The claims *)

(** ** C1: the per-customer log-likelihood *)

(** C1. For every customer [i] of a batch with conforming sizes, the
    entry the kernel returns is [log (exp L1_i + exp L2_i)], with the
    common term [G = lgamma (r + x_i) - lgamma r],
    [L1_i = G + r (log alpha_i - log (alpha_i + t_cal_i))
            - x_i log (alpha_i + t_cal_i)
            + s (log beta_i - log (beta_i - 1 + exp (b t_cal_i)))] and
    [L2_i = G + log b + r log alpha_i + log s + s log beta_i
            + log Integral_i], where [Integral_i] is what the integrator
    returned for the customer.  Every operation is the one of [double],
    in the order of lines 88, 89 and 94: the terms after [G] are summed
    before [G] is added, and [- x_i log (...)] is computed as
    [x_i (0 - log (...))].  So an integral of zero, as for a customer
    with [t_x_i = t_cal_i], goes through [log] and [exp] like any other
    value. *)
Theorem customer_log_likelihood_formula {num : Type} {DN : Double num}
    (qags : integrator num) (r b s : num)
    (vAlpha_i vBeta_i vX vT_x vT_cal : vec num) (w : World num) (i : nat) :
  conforming vAlpha_i vBeta_i vX vT_x vT_cal ->
  i < length vX ->
  let alpha_i := elem vAlpha_i i in
  let beta_i := elem vBeta_i i in
  let x_i := elem vX i in
  let t_x_i := elem vT_x i in
  let t_cal_i := elem vT_cal i in
  let Integral_i :=
    result (qags_call qags r b s alpha_i beta_i x_i t_x_i t_cal_i) in
  let G := (dlgamma (r + x_i) - dlgamma r)%D in
  let L1_i :=
    (G + (r * (dlog alpha_i - dlog (alpha_i + t_cal_i))
          + x_i * (dlit 0%Q - dlog (alpha_i + t_cal_i))
          + s * (dlog beta_i
                 - dlog (beta_i - dlit 1%Q + dexp (b * t_cal_i)))))%D in
  let L2_i :=
    (G + (dlog b + r * dlog alpha_i + dlog s + s * dlog beta_i
          + dlog Integral_i))%D in
  exists vLL,
    fst (ggomnbd_LL_ind qags r b s vAlpha_i vBeta_i vX vT_x vT_cal w) = Ok vLL
    /\ nth_error vLL i = Some (dlog (dexp L1_i + dexp L2_i))%D.
Proof.
  intros Hc Hi. cbv zeta.
  rewrite ggomnbd_LL_ind_run by assumption.
  eexists; split; [reflexivity|].
  rewrite batch_LL_elem by assumption.
  reflexivity.
Qed.

Lemma customer_log_likelihood_formula_witness :
  conforming [1%float] [1%float] [0%float] [1%float] [1%float] /\
  0 < length [0%float] /\
  exists vLL,
    fst (ggomnbd_LL_ind (rectangle_rule GSL_SUCCESS) 1%float 1%float 1%float
           [1%float] [1%float] [0%float] [1%float] [1%float] initial_world)
    = Ok vLL
    /\ nth_error vLL 0
       = Some (dlog
                 (dexp (dlgamma (1 + 0) - dlgamma 1
                        + (1 * (dlog 1 - dlog (1 + 1))
                           + 0 * (dlit 0%Q - dlog (1 + 1))
                           + 1 * (dlog 1
                                  - dlog (1 - dlit 1%Q + dexp (1 * 1)))))
                  + dexp (dlgamma (1 + 0) - dlgamma 1
                          + (dlog 1 + 1 * dlog 1 + dlog 1 + 1 * dlog 1
                             + dlog (result
                                       (qags_call
                                          (rectangle_rule GSL_SUCCESS)
                                          1 1 1 1 1 0 1 1))))))%float.
Proof.
  assert (Hc : conforming [1%float] [1%float] [0%float] [1%float] [1%float])
    by (unfold conforming; simpl; lia).
  assert (Hi : 0 < length [0%float]) by (simpl; lia).
  split; [exact Hc|]. split; [exact Hi|].
  exact (@customer_log_likelihood_formula float Binary64.double
           (rectangle_rule GSL_SUCCESS) 1%float 1%float 1%float
           [1%float] [1%float] [0%float] [1%float] [1%float]
           initial_world 0 Hc Hi).
Defined.

(** ** C2: how the two parts are combined *)

(** C2, as the code has it. On conforming sizes the entry of customer
    [i] is [log (exp L1_i + exp L2_i)], computed as written: line 94
    exponentiates both parts, adds and takes the logarithm, and no
    maximum, absolute value or [log1p] is involved.  In exact arithmetic
    this is the value of [max(L1, L2) + log1p(exp(-|L1 - L2|))]. *)
Theorem combination_is_naive {num : Type} {DN : Double num}
    (qags : integrator num) (r b s : num)
    (vAlpha_i vBeta_i vX vT_x vT_cal : vec num) (w : World num) (i : nat) :
  conforming vAlpha_i vBeta_i vX vT_x vT_cal ->
  i < length vX ->
  (exists vLL L1_i L2_i,
      fst (ggomnbd_LL_ind qags r b s vAlpha_i vBeta_i vX vT_x vT_cal w)
      = Ok vLL
      /\ L1_i = customer_L1 r b s (elem vAlpha_i i) (elem vBeta_i i)
                            (elem vX i) (elem vT_cal i)
      /\ L2_i = customer_L2 r b s (elem vAlpha_i i) (elem vBeta_i i)
                            (elem vX i)
                            (result (qags_call qags r b s (elem vAlpha_i i)
                                       (elem vBeta_i i) (elem vX i)
                                       (elem vT_x i) (elem vT_cal i)))
      /\ nth_error vLL i = Some (dlog (dexp L1_i + dexp L2_i))%D)
  /\ (forall L1 L2 : R, stabilised_LL L1 L2 = ln (exp L1 + exp L2)%R).
Proof.
  intros Hc Hi. split; [|exact real_stabilised].
  rewrite ggomnbd_LL_ind_run by assumption.
  do 3 eexists. split; [reflexivity|]. split; [reflexivity|].
  split; [reflexivity|].
  now rewrite batch_LL_elem.
Qed.

Lemma combination_is_naive_witness :
  conforming [1%R] [1%R] [0%R] [0%R] [1%R] /\
  0 < length [0%R] /\
  exists vLL L1_i L2_i,
    fst (ggomnbd_LL_ind (rectangle_rule GSL_SUCCESS) 1%R 1%R 1%R
           [1%R] [1%R] [0%R] [0%R] [1%R] initial_world) = Ok vLL
    /\ L1_i = customer_L1 1%R 1%R 1%R 1%R 1%R 0%R 1%R
    /\ L2_i = customer_L2 1%R 1%R 1%R 1%R 1%R 0%R
                (result (qags_call (rectangle_rule GSL_SUCCESS)
                           1%R 1%R 1%R 1%R 1%R 0%R 0%R 1%R))
    /\ nth_error vLL 0 = Some (ln (exp L1_i + exp L2_i))%R.
Proof.
  assert (Hc : conforming [1%R] [1%R] [0%R] [0%R] [1%R])
    by (unfold conforming; simpl; lia).
  assert (Hi : 0 < length [0%R]) by (simpl; lia).
  split; [exact Hc|]. split; [exact Hi|].
  exact (proj1 (@combination_is_naive R Real (rectangle_rule GSL_SUCCESS)
                  1%R 1%R 1%R [1%R] [1%R] [0%R] [0%R] [1%R] initial_world 0
                  Hc Hi)).
Defined.

(** C2, as the claim has it, fails. One customer with 200 repeat
    transactions in a window of length one, every parameter equal to one:
    both parts are finite and near 723 and 781, the exponential of each
    is beyond binary64, and the evaluator returns infinity, where the
    stabilised combination of the same two parts is finite.  The same
    happens with the integral at its value, about [1.82e-38]. *)
Lemma naive_combination_overflows :
  let q := rectangle_rule (num := float) GSL_SUCCESS in
  let Integral :=
    result (qags_call q 1%float 1%float 1%float 1%float 1%float
                      200%float 0.5%float 1%float) in
  let L1 := customer_L1 1%float 1%float 1%float 1%float 1%float
                        200%float 1%float in
  let L2 := customer_L2 1%float 1%float 1%float 1%float 1%float
                        200%float Integral in
  fst (ggomnbd_nocov_LL_ind q [0; 0; 0; 0; 0]%float [200%float] [0.5%float]
                            [1%float] initial_world) = Ok [infinity]
  /\ is_finite L1 = true /\ is_finite L2 = true
  /\ (710 <? L1)%float = true /\ (710 <? L2)%float = true
  /\ is_finite (stabilised_LL L1 L2) = true
  /\ fst (ggomnbd_nocov_LL_ind
            (fixed_estimate GSL_SUCCESS 0x1.8c941a3aded57p-126%float)
            [0; 0; 0; 0; 0]%float [200%float] [0.5%float] [1%float]
            initial_world) = Ok [infinity].
Proof. vm_compute. repeat split. Qed.

(** ** C3: the integral of each customer *)

(** C3, as the code has it. On conforming sizes the integral used for
    customer [i] is the estimate [gsl_integration_qags] returns for
    [f y = (y + alpha_i)^-(r + x_i) (beta_i + exp (b y) - 1)^-(s + 1)
    exp (b y)] over [t_x_i, t_cal_i] with both tolerances [1e-8], called
    with a workspace of capacity 1000; the status the call reports is not
    read, so the run is the same whatever is reported, the console
    receives the lines of the divergence heuristic and nothing else, and
    the estimate is stored and used. *)
Theorem quadrature_estimate_used {num : Type} {DN : Double num}
    (qags : integrator num) (r b s : num)
    (vAlpha_i vBeta_i vX vT_x vT_cal : vec num) (w : World num) :
  conforming vAlpha_i vBeta_i vX vT_x vT_cal ->
  (forall st : gsl_status,
      ggomnbd_LL_ind (with_status st qags) r b s
                     vAlpha_i vBeta_i vX vT_x vT_cal w
      = ggomnbd_LL_ind qags r b s vAlpha_i vBeta_i vX vT_x vT_cal w)
  /\ rcout (snd (ggomnbd_LL_ind qags r b s vAlpha_i vBeta_i vX vT_x vT_cal w))
     = rcout w ++ divergence_messages r b s vAlpha_i vBeta_i vX vT_x
  /\ forall i : nat,
      i < length vX ->
      let alpha_i := elem vAlpha_i i in
      let beta_i := elem vBeta_i i in
      let x_i := elem vX i in
      let f := fun y =>
        (dpow (y + alpha_i) (- (r + x_i))
         * dpow (beta_i + dexp (b * y) - dlit 1%Q) (- (s + dlit 1%Q))
         * dexp (b * y))%D in
      let Integral_i :=
        result (qags f (elem vT_x i) (elem vT_cal i)
                     (dlit (1 # 100000000)%Q) (dlit (1 # 100000000)%Q)
                     0 1000) in
      exists vLL,
        fst (ggomnbd_LL_ind qags r b s vAlpha_i vBeta_i vX vT_x vT_cal w)
        = Ok vLL
        /\ nth_error vLL i
           = Some (dlog (dexp (customer_L1 r b s alpha_i beta_i x_i
                                           (elem vT_cal i))
                         + dexp (customer_L2 r b s alpha_i beta_i x_i
                                             Integral_i)))%D.
Proof.
  intros Hc. split; [|split].
  - intros st. rewrite !ggomnbd_LL_ind_run by assumption.
    now rewrite batch_LL_with_status.
  - apply ggomnbd_LL_ind_rcout.
  - intros i Hi. cbv zeta.
    rewrite ggomnbd_LL_ind_run by assumption.
    eexists; split; [reflexivity|].
    now rewrite batch_LL_elem.
Qed.

Lemma quadrature_estimate_used_witness :
  conforming [1%R] [1%R] [0%R] [0%R] [1%R] /\
  (forall st : gsl_status,
      ggomnbd_LL_ind (with_status st (rectangle_rule GSL_SUCCESS)) 1%R 1%R 1%R
                     [1%R] [1%R] [0%R] [0%R] [1%R] initial_world
      = ggomnbd_LL_ind (rectangle_rule GSL_SUCCESS) 1%R 1%R 1%R
                       [1%R] [1%R] [0%R] [0%R] [1%R] initial_world).
Proof.
  assert (Hc : conforming [1%R] [1%R] [0%R] [0%R] [1%R])
    by (unfold conforming; simpl; lia).
  split; [exact Hc|].
  exact (proj1 (quadrature_estimate_used (rectangle_rule GSL_SUCCESS)
                  1%R 1%R 1%R initial_world Hc)).
Defined.

(** C3, as the claim has it, fails: here the integrator reports that the
    subdivision cap was reached before the tolerance, and the evaluator
    returns its values with nothing printed. *)
Lemma quadrature_failure_not_reported :
  let q := rectangle_rule (num := R) GSL_EMAXITER in
  let run :=
    ggomnbd_LL_ind q 1%R 1%R 1%R [1%R] [1%R] [0%R] [0%R] [1%R]
                   initial_world in
  status (qags_call q 1%R 1%R 1%R 1%R 1%R 0%R 0%R 1%R) = GSL_EMAXITER /\
  fst run = Ok (batch_LL q 1%R 1%R 1%R [1%R] [1%R] [0%R] [0%R] [1%R]) /\
  rcout (snd run) = [].
Proof.
  cbv zeta. split; [reflexivity|].
  rewrite ggomnbd_LL_ind_run by (unfold conforming; simpl; lia).
  split; [reflexivity|].
  cbn [snd rcout initial_world app]. apply unit_batch_quiet.
Qed.

(** ** C4: mismatched sizes *)

(** C4, as the code has it. A call of the covariate variant runs to its
    end exactly when both covariate matrices have a column, the
    parameter vector has at least [5 + k_life + k_trans] entries, there
    is a customer, both matrices have [n] rows, [t_cal] has [n] entries
    and [t_x] has at least [n]; otherwise it raises one of the vector
    library's exceptions.  A longer parameter vector and a longer [t_x]
    are accepted.  Nothing is validated up front: once the parameters
    are decoded the lines of the divergence heuristic are printed,
    whether or not the call then fails on a size. *)
Theorem staticcov_accepts_exactly {num : Type} {DN : Double num}
    (qags : integrator num) (vParams vX vT_x vT_cal : vec num)
    (mCov_life mCov_trans : mat num) (w : World num) :
  let accepted :=
    (1 <=? n_cols mCov_life) && (1 <=? n_cols mCov_trans)
    && (5 + n_cols mCov_life + n_cols mCov_trans <=? length vParams)
    && ((1 <=? length vX) && (n_rows mCov_trans =? length vX)
        && (n_rows mCov_life =? length vX) && (length vT_cal =? length vX)
        && (length vX <=? length vT_x)) in
  is_ok (fst (ggomnbd_staticcov_LL_ind qags vParams vX vT_x vT_cal
                                       mCov_life mCov_trans w)) = accepted
  /\ is_ok (fst (ggomnbd_staticcov_LL_sum qags vParams vX vT_x vT_cal
                                          mCov_life mCov_trans w)) = accepted
  /\ rcout (snd (ggomnbd_staticcov_LL_ind qags vParams vX vT_x vT_cal
                                          mCov_life mCov_trans w))
     = rcout w
       ++ match staticcov_parameters vParams mCov_life mCov_trans with
          | Ok p => divergence_messages (p_r p) (p_b p) (p_s p)
                      (p_vAlpha_i p) (p_vBeta_i p) vX vT_x
          | Err _ => []
          end.
Proof.
  cbv zeta. split; [|split].
  - apply ggomnbd_staticcov_LL_ind_ok.
  - unfold ggomnbd_staticcov_LL_sum.
    rewrite bind_ret_negated_sum, negated_sum_ok.
    apply ggomnbd_staticcov_LL_ind_ok.
  - rewrite ggomnbd_staticcov_LL_ind_unfold.
    destruct (staticcov_parameters vParams mCov_life mCov_trans).
    + apply ggomnbd_LL_ind_rcout.
    + cbn [snd]. now rewrite app_nil_r.
Qed.

(** C4, as the claim has it, fails: a parameter vector of 8 entries
    where [5 + 1 + 1 = 7] are read, and a [t_x] of two entries for one
    customer, are both accepted. *)
Lemma staticcov_mismatch_accepted :
  let q := rectangle_rule (num := R) GSL_SUCCESS in
  let M := one_by_one 0%R in
  length [0; 0; 0; 0; 0; 0; 0; 7]%R <> 5 + n_cols M + n_cols M /\
  is_ok (fst (ggomnbd_staticcov_LL_ind q [0; 0; 0; 0; 0; 0; 0; 7]%R
                [0%R] [0%R] [1%R] M M initial_world)) = true /\
  length [0; 5]%R <> length [0%R] /\
  is_ok (fst (ggomnbd_staticcov_LL_ind q [0; 0; 0; 0; 0; 0; 0]%R
                [0%R] [0; 5]%R [1%R] M M initial_world)) = true.
Proof.
  cbv zeta. rewrite !ggomnbd_staticcov_LL_ind_ok.
  repeat split; try reflexivity; simpl; lia.
Qed.

(** ** C5: the aggregate entry points *)

(** C5. Each Sum entry point returns the negated [arma::sum] of the
    vector its individual entry point returns on the same inputs, fails
    as it fails, and leaves the same state; in exact arithmetic
    [arma::sum] is the sum of the entries. *)
Theorem sum_is_negated_sum_of_individual {num : Type} {DN : Double num}
    (qags : integrator num) (vLogparams vParams vX vT_x vT_cal : vec num)
    (mCov_life mCov_trans : mat num) (w : World num) :
  ggomnbd_nocov_LL_sum qags vLogparams vX vT_x vT_cal w
  = (match fst (ggomnbd_nocov_LL_ind qags vLogparams vX vT_x vT_cal w) with
     | Ok vLL => Ok (- arma_sum vLL)%D
     | Err e => Err e
     end,
     snd (ggomnbd_nocov_LL_ind qags vLogparams vX vT_x vT_cal w))
  /\ ggomnbd_staticcov_LL_sum qags vParams vX vT_x vT_cal
                              mCov_life mCov_trans w
     = (match fst (ggomnbd_staticcov_LL_ind qags vParams vX vT_x vT_cal
                                            mCov_life mCov_trans w) with
        | Ok vLL => Ok (- arma_sum vLL)%D
        | Err e => Err e
        end,
        snd (ggomnbd_staticcov_LL_ind qags vParams vX vT_x vT_cal
                                      mCov_life mCov_trans w))
  /\ (forall vLL : vec R, arma_sum vLL = fold_right Rplus 0%R vLL).
Proof.
  split; [|split].
  - unfold ggomnbd_nocov_LL_sum. now rewrite bind_ret_negated_sum.
  - unfold ggomnbd_staticcov_LL_sum. now rewrite bind_ret_negated_sum.
  - exact arma_sum_real.
Qed.

(** ** C6: zero coefficients *)




(** ** C7: positivity *)

(** C7, as the code has it. Each decoded scalar is the exponential of
    its entry of the parameter vector; without covariates [alpha] and
    [beta] hold [alpha_0] and [beta_0] once per customer, and with
    covariates entry [i] is [alpha_0 exp (-cov_trans_i . theta_trans)]
    and [beta_0 exp (-cov_life_i . theta_life)], one per row.  So every
    property that exponentials have and products keep holds of all of
    them: strict positivity in exact arithmetic, where no exponential is
    zero and no product of positive numbers is. *)
Theorem decoded_parameters_positive {num : Type} {DN : Double num}
    (positive : num -> Prop) (vParams vX : vec num)
    (mCov_life mCov_trans : mat num) (p : parameters (num := num)) :
  (forall y, positive (dexp y)) ->
  (forall a c, positive a -> positive c -> positive (a * c)%D) ->
  nocov_parameters vParams vX = Ok p
  \/ staticcov_parameters vParams mCov_life mCov_trans = Ok p ->
  (p_r p = dexp (elem vParams 0) /\ p_alpha_0 p = dexp (elem vParams 1)
   /\ p_b p = dexp (elem vParams 2) /\ p_s p = dexp (elem vParams 3)
   /\ p_beta_0 p = dexp (elem vParams 4))
  /\ (positive (p_r p) /\ positive (p_alpha_0 p) /\ positive (p_b p)
      /\ positive (p_s p) /\ positive (p_beta_0 p)
      /\ Forall positive (p_vAlpha_i p) /\ Forall positive (p_vBeta_i p))
  /\ (nocov_parameters vParams vX = Ok p ->
      p_vAlpha_i p = repeat (p_alpha_0 p) (length vX)
      /\ p_vBeta_i p = repeat (p_beta_0 p) (length vX))
  /\ (staticcov_parameters vParams mCov_life mCov_trans = Ok p ->
      p_vAlpha_i p
      = map (fun i =>
               p_alpha_0 p
               * dexp (dot (mat_row (mat_scale mCov_trans (dlit (-1)%Q)) i)
                           (trans_params vParams mCov_life mCov_trans)))%D
            (seq 0 (n_rows mCov_trans))
      /\ p_vBeta_i p
         = map (fun i =>
                  p_beta_0 p
                  * dexp (dot (mat_row (mat_scale mCov_life (dlit (-1)%Q)) i)
                              (life_params vParams mCov_life)))%D
               (seq 0 (n_rows mCov_life))).
Proof.
  intros Hexp Hmul H.
  destruct (@decoded_parameters_shape _ _ vParams vX mCov_life mCov_trans p H)
    as (Hs & Hn & Hc).
  split; [exact Hs|]. split; [|split; assumption].
  destruct Hs as (Er & Ea & Eb & Es & Ebeta).
  assert (Pa : positive (p_alpha_0 p)) by (rewrite Ea; apply Hexp).
  assert (Pb : positive (p_beta_0 p)) by (rewrite Ebeta; apply Hexp).
  split; [rewrite Er; apply Hexp|]. split; [exact Pa|].
  split; [rewrite Eb; apply Hexp|]. split; [rewrite Es; apply Hexp|].
  split; [exact Pb|].
  destruct H as [H|H].
  - destruct (Hn H) as [-> ->].
    split; apply Forall_forall; intros y Hy;
      apply repeat_spec in Hy; subst y; assumption.
  - destruct (Hc H) as [-> ->].
    split; apply Forall_forall; intros y Hy;
      apply in_map_iff in Hy; destruct Hy as (i & <- & _);
      apply Hmul; (assumption || apply Hexp).
Qed.

Lemma decoded_parameters_positive_witness :
  exists p : parameters (num := R),
    staticcov_parameters [0; -1; 0; 2; 0; 5; -4]%R
                         (one_by_one 3%R) (one_by_one (-2)%R) = Ok p
    /\ (0 < p_r p /\ 0 < p_alpha_0 p /\ 0 < p_b p /\ 0 < p_s p
        /\ 0 < p_beta_0 p)%R
    /\ Forall (fun a => 0 < a)%R (p_vAlpha_i p)
    /\ Forall (fun c => 0 < c)%R (p_vBeta_i p)
    /\ length (p_vAlpha_i p) = 1 /\ length (p_vBeta_i p) = 1.
Proof.
  eexists. split; [reflexivity|].
  destruct (@decoded_parameters_positive R Real (fun a => 0 < a)%R
              [0; -1; 0; 2; 0; 5; -4]%R []
              (one_by_one 3%R) (one_by_one (-2)%R) _
              exp_pos Rmult_lt_0_compat (or_intror eq_refl))
    as (_ & (P1 & P2 & P3 & P4 & P5 & P6 & P7) & _ & _).
  repeat split; assumption.
Defined.

(** C7, as the claim has it, fails. In [double] the exponential of
    [-800] is zero: the parameter [r] decoded from the entry [-800] is
    zero, and with a lifetime covariate of 1 and the coefficient 800 so
    is [beta_i]; neither is strictly positive. *)
Lemma decoded_parameter_underflows :
  (exists p,
      nocov_parameters [-800; 0; 0; 0; 0]%float [0%float] = Ok p
      /\ p_r p = 0%float)
  /\ (exists p,
         staticcov_parameters [0; 0; 0; 0; 0; 800; 0]%float
                              (one_by_one 1%float) (one_by_one 1%float)
         = Ok p
         /\ p_beta_0 p = 1%float /\ p_vBeta_i p = [0%float]).
Proof.
  split; eexists; (split; [reflexivity|]); vm_compute; repeat split.
Qed.

(** ** C8: the divergence heuristic *)




(** ** C9: purity and locality *)

(** C9. What the kernel and the two individual entry points return (values
    or failure) and the lines they print do not depend on the state left
    by earlier calls; and when two batches with conforming sizes share
    [r], [b], [s] and agree on the data of customer [i] of the one and
    customer [j] of the other, the two entries are equal, whatever the
    other customers are. *)
Theorem evaluator_pure_and_local {num : Type} {DN : Double num}
    (qags : integrator num) (r b s : num)
    (vAlpha_i vBeta_i vX vT_x vT_cal : vec num)
    (vAlpha_i' vBeta_i' vX' vT_x' vT_cal' : vec num)
    (vParams : vec num) (mCov_life mCov_trans : mat num)
    (w w' : World num) (i j : nat) :
  conforming vAlpha_i vBeta_i vX vT_x vT_cal ->
  conforming vAlpha_i' vBeta_i' vX' vT_x' vT_cal' ->
  i < length vX -> j < length vX' ->
  elem vAlpha_i i = elem vAlpha_i' j -> elem vBeta_i i = elem vBeta_i' j ->
  elem vX i = elem vX' j -> elem vT_x i = elem vT_x' j ->
  elem vT_cal i = elem vT_cal' j ->
  (fst (ggomnbd_LL_ind qags r b s vAlpha_i vBeta_i vX vT_x vT_cal w)
   = fst (ggomnbd_LL_ind qags r b s vAlpha_i vBeta_i vX vT_x vT_cal w')
   /\ fst (ggomnbd_nocov_LL_ind qags vParams vX vT_x vT_cal w)
      = fst (ggomnbd_nocov_LL_ind qags vParams vX vT_x vT_cal w')
   /\ fst (ggomnbd_staticcov_LL_ind qags vParams vX vT_x vT_cal
                                    mCov_life mCov_trans w)
      = fst (ggomnbd_staticcov_LL_ind qags vParams vX vT_x vT_cal
                                      mCov_life mCov_trans w')
   /\ exists out,
       rcout (snd (ggomnbd_LL_ind qags r b s vAlpha_i vBeta_i vX vT_x
                                  vT_cal w)) = rcout w ++ out
       /\ rcout (snd (ggomnbd_LL_ind qags r b s vAlpha_i vBeta_i vX vT_x
                                     vT_cal w')) = rcout w' ++ out)
  /\ exists vLL vLL' LL_i,
      fst (ggomnbd_LL_ind qags r b s vAlpha_i vBeta_i vX vT_x vT_cal w)
      = Ok vLL
      /\ fst (ggomnbd_LL_ind qags r b s vAlpha_i' vBeta_i' vX' vT_x' vT_cal'
                             w') = Ok vLL'
      /\ nth_error vLL i = Some LL_i /\ nth_error vLL' j = Some LL_i.
Proof.
  intros Hc Hc' Hi Hj Ea Eb Ex Et Ec. split.
  - split; [apply ggomnbd_LL_ind_state_free|].
    split; [apply ggomnbd_nocov_LL_ind_state_free|].
    split; [apply ggomnbd_staticcov_LL_ind_state_free|].
    eexists. split; apply ggomnbd_LL_ind_rcout.
  - rewrite !ggomnbd_LL_ind_run by assumption.
    do 3 eexists. split; [reflexivity|]. split; [reflexivity|].
    rewrite !batch_LL_elem by assumption.
    split; [reflexivity|].
    now rewrite Ea, Eb, Ex, Et, Ec.
Qed.

Lemma evaluator_pure_and_local_witness :
  conforming [1; 2]%R [1; 3]%R [0; 4]%R [0; 1]%R [1; 5]%R /\
  conforming [2%R] [3%R] [4%R] [1%R] [5%R] /\
  1 < length [0; 4]%R /\ 0 < length [4%R] /\
  exists vLL vLL' LL_i,
    fst (ggomnbd_LL_ind (rectangle_rule GSL_SUCCESS) 1%R 1%R 1%R
           [1; 2]%R [1; 3]%R [0; 4]%R [0; 1]%R [1; 5]%R initial_world)
    = Ok vLL
    /\ fst (ggomnbd_LL_ind (rectangle_rule GSL_SUCCESS) 1%R 1%R 1%R
              [2%R] [3%R] [4%R] [1%R] [5%R] initial_world) = Ok vLL'
    /\ nth_error vLL 1 = Some LL_i /\ nth_error vLL' 0 = Some LL_i.
Proof.
  assert (Hc : conforming [1; 2]%R [1; 3]%R [0; 4]%R [0; 1]%R [1; 5]%R)
    by (unfold conforming; simpl; lia).
  assert (Hc' : conforming [2%R] [3%R] [4%R] [1%R] [5%R])
    by (unfold conforming; simpl; lia).
  split; [exact Hc|]. split; [exact Hc'|].
  split; [simpl; lia|]. split; [simpl; lia|].
  refine (proj2 (@evaluator_pure_and_local R Real (rectangle_rule GSL_SUCCESS)
                   1%R 1%R 1%R _ _ _ _ _ _ _ _ _ _ [] (one_by_one 0%R)
                   (one_by_one 0%R) initial_world initial_world 1 0
                   Hc Hc' _ _ eq_refl eq_refl eq_refl eq_refl eq_refl));
    simpl; lia.
Defined.

(** ** C10: the empty batch *)

(** C10. With [x], [t_x] and [t_cal] empty no entry point returns a
    value: once the parameters are decoded the kernel raises at the
    first extremum of line 49, so the individual entry points do not
    return an empty vector and the Sum entry points do not return
    zero. *)
Theorem empty_batch_fails {num : Type} {DN : Double num}
    (qags : integrator num) (vLogparams vParams : vec num)
    (mCov_life mCov_trans : mat num) (w : World num) :
  fst (ggomnbd_nocov_LL_ind qags vLogparams [] [] [] w)
  = Err (if 5 <=? length vLogparams then NoElements else IndexOutOfBounds)
  /\ fst (ggomnbd_nocov_LL_sum qags vLogparams [] [] [] w)
     = Err (if 5 <=? length vLogparams then NoElements
            else IndexOutOfBounds)
  /\ fst (ggomnbd_staticcov_LL_ind qags vParams [] [] []
                                   mCov_life mCov_trans w)
     = Err (if layout_ok vParams mCov_life mCov_trans then NoElements
            else IndexOutOfBounds)
  /\ fst (ggomnbd_staticcov_LL_sum qags vParams [] [] []
                                   mCov_life mCov_trans w)
     = Err (if layout_ok vParams mCov_life mCov_trans then NoElements
            else IndexOutOfBounds).
Proof.
  assert (N : fst (ggomnbd_nocov_LL_ind qags vLogparams [] [] [] w)
              = Err (if 5 <=? length vLogparams then NoElements
                     else IndexOutOfBounds)).
  { rewrite ggomnbd_nocov_LL_ind_unfold.
    destruct (le_lt_dec 5 (length vLogparams)) as [L|L].
    - rewrite nocov_parameters_run by assumption.
      apply Nat.leb_le in L. rewrite L.
      apply ggomnbd_LL_ind_no_customers.
    - rewrite nocov_parameters_short by assumption.
      apply Nat.leb_gt in L. now rewrite L. }
  assert (S : fst (ggomnbd_staticcov_LL_ind qags vParams [] [] []
                                            mCov_life mCov_trans w)
              = Err (if layout_ok vParams mCov_life mCov_trans
                     then NoElements else IndexOutOfBounds)).
  { rewrite ggomnbd_staticcov_LL_ind_unfold.
    destruct (layout_ok vParams mCov_life mCov_trans) eqn:E.
    - rewrite staticcov_parameters_run by assumption.
      apply ggomnbd_LL_ind_no_customers.
    - now rewrite staticcov_parameters_fail. }
  split; [exact N|]. split.
  - unfold ggomnbd_nocov_LL_sum. rewrite bind_ret_negated_sum.
    now apply negated_sum_fst_err.
  - split; [exact S|].
    unfold ggomnbd_staticcov_LL_sum. rewrite bind_ret_negated_sum.
    now apply negated_sum_fst_err.
Qed.

(** * Further properties of the evaluators *)

(** ** The exceptions of the kernel *)

Section KernelErrors.
Context {num : Type} {DN : Double num}.
Variable qags : integrator num.
Local Open Scope double_scope.

Lemma vec_at_err (v : vec num) (i : nat) (e : error) :
  vec_at v i = Err e -> e = IndexOutOfBounds.
Proof. unfold vec_at. destruct (nth_error v i); congruence. Qed.

Lemma vec_zip_err (f : num -> num -> num) (v w : vec num) (e : error) :
  vec_zip f v w = Err e -> e = IncompatibleDimensions.
Proof. unfold vec_zip. destruct (length v =? length w); congruence. Qed.

(** The loop raises nothing but an index out of bounds. *)
Lemma integration_loop_err (vT_x vT_cal : vec num) :
  forall (todo : nat) (acc : vec num) (w : World num) (e : error),
    fst (integration_loop qags todo vT_x vT_cal acc w) = Err e ->
    e = IndexOutOfBounds.
Proof.
  induction todo as [|todo IH]; intros acc w e; [discriminate|].
  cbn [integration_loop]. rewrite bind_get.
  repeat match goal with
         | |- context [bind (lift ?x) _ _] =>
             let E := fresh "E" in
             destruct x eqn:E; rewrite ?bind_lift_ok, ?bind_lift_err;
             [|cbn [fst]; intros [= <-]; now apply vec_at_err in E]
         end.
  rewrite bind_set_globI. apply IH.
Qed.

(** Lines 75-94 raise nothing but a size mismatch. *)
Lemma log_likelihood_err (r b s : num)
    (vAlpha_i vBeta_i vX vT_cal vIntegrals : vec num) (e : error) :
  log_likelihood r b s vAlpha_i vBeta_i vX vT_cal vIntegrals = Err e ->
  e = IncompatibleDimensions.
Proof.
  unfold log_likelihood, L1_terms, L2_terms, vec_add, vec_sub, vec_schur.
  repeat match goal with
         | |- rbind ?x _ = Err _ -> _ =>
             let E := fresh "E" in
             destruct x eqn:E; cbn [rbind];
             [|intros [= <-]; now apply vec_zip_err in E]
         | |- rbind (rbind ?x _) _ = Err _ -> _ =>
             let E := fresh "E" in
             destruct x eqn:E; cbn [rbind];
             [|intros [= <-]; now apply vec_zip_err in E]
         end.
  discriminate.
Qed.

(** What the kernel returns, on any sizes. *)
Lemma ggomnbd_LL_ind_result (r b s : num)
    (vAlpha_i vBeta_i vX vT_x vT_cal : vec num) (w : World num) :
  fst (ggomnbd_LL_ind qags r b s vAlpha_i vBeta_i vX vT_x vT_cal w)
  = if conformingb vAlpha_i vBeta_i vX vT_x vT_cal
    then Ok (batch_LL qags r b s vAlpha_i vBeta_i vX vT_x vT_cal)
    else Err (kernel_error vAlpha_i vBeta_i vX vT_x vT_cal).
Proof.
  destruct (conformingb vAlpha_i vBeta_i vX vT_x vT_cal) eqn:C.
  - unfold conformingb in C.
    rewrite !andb_true_iff, !Nat.eqb_eq, !Nat.leb_le in C.
    now rewrite ggomnbd_LL_ind_run by (unfold conforming; tauto).
  - pose proof (ggomnbd_LL_ind_ok qags r b s vAlpha_i vBeta_i vX vT_x vT_cal w)
      as Hok.
    rewrite C in Hok. revert Hok.
    destruct w as [g out]. unfold ggomnbd_LL_ind, kernel_error.
    rewrite bind_get, bind_set. cbn [globals rcout].
    pose proof (lower_boundary_ok r b s vAlpha_i vBeta_i vX vT_x) as Hlo.
    pose proof (upper_boundary_ok r b s vAlpha_i vBeta_i vX vT_x) as Hup.
    destruct (lower_boundary r b s vAlpha_i vBeta_i vX vT_x) as [below|e]
      eqn:Elo.
    2:{ rewrite bind_lift_err. cbn [fst is_ok] in *. intros _.
        apply lower_boundary_err in Elo. subst e.
        destruct (length vT_x =? 0), (length vAlpha_i =? 0),
          (length vX =? 0), (length vBeta_i =? 0);
          simpl in Hlo; try discriminate; reflexivity. }
    destruct (upper_boundary r b s vAlpha_i vBeta_i vX vT_x) as [above|];
      [|discriminate].
    cbn [is_ok] in Hlo. symmetry in Hlo.
    rewrite !andb_true_iff, !negb_true_iff in Hlo.
    destruct Hlo as (((Z1 & Z2) & Z3) & Z4). rewrite Z1, Z2, Z3, Z4.
    cbn [orb].
    rewrite !bind_lift_ok, !bind_when_print, bind_set_globI.
    cbn [globals rcout]. cbv [with_globI].
    cbn [gpvX gpvAlpha_i gpvBeta_i r_glob b_glob s_glob].
    unfold bind.
    match goal with
    | |- context [integration_loop ?q ?n ?a ?b ?c
                                   {| globals := ?G; rcout := ?O |}] =>
        pose proof (@integration_loop_ok _ _ q a b n c G O) as Hloop;
        pose proof (@integration_loop_err a b n c
                      {| globals := G; rcout := O |}) as Herr;
        pose proof (@integration_loop_run _ _ q a b n c G O) as Hrun;
        destruct (integration_loop q n a b c {| globals := G; rcout := O |})
          as [[vI|e] w']
    end; cbn [fst is_ok globI gpvX gpvAlpha_i gpvBeta_i] in *.
    + specialize (Hloop eq_refl).
      apply Nat.eqb_neq in Z3.
      destruct Hloop as [Hz|(L1 & L2 & L3 & _ & L5)]; [congruence|].
      replace (length vT_x <? length vX) with false
        by (symmetry; apply Nat.ltb_ge; lia).
      replace (length vT_cal <? length vX) with false
        by (symmetry; apply Nat.ltb_ge; lia).
      replace (length vAlpha_i <? length vX) with false
        by (symmetry; apply Nat.ltb_ge; lia).
      replace (length vBeta_i <? length vX) with false
        by (symmetry; apply Nat.ltb_ge; lia).
      cbn [orb]. unfold lift. cbn [fst].
      destruct (log_likelihood r b s vAlpha_i vBeta_i vX vT_cal vI) as [v|e]
        eqn:E; [discriminate|].
      intros _. apply log_likelihood_err in E. subst e. reflexivity.
    + intros _. rewrite (Herr e eq_refl).
      destruct ((length vT_x <? length vX) || (length vT_cal <? length vX)
                || (length vAlpha_i <? length vX)
                || (length vBeta_i <? length vX)) eqn:S; [reflexivity|].
      rewrite !orb_false_iff, !Nat.ltb_ge in S.
      destruct S as (((S1 & S2) & S3) & S4).
      discriminate Hrun; lia.
Qed.

(** The loop stops at the first customer a vector has no entry for,
    with [globI] left at that customer. *)
Lemma integration_loop_stops (vT_x vT_cal : vec num) :
  forall (todo : nat) (acc : vec num) (g : Globals num)
         (out : list (message num)) (k : nat),
    k = first_missing (gpvAlpha_i g) (gpvBeta_i g) vT_x vT_cal ->
    globI g <= k -> k < globI g + todo ->
    globI g + todo <= length (gpvX g) ->
    integration_loop qags todo vT_x vT_cal acc
                     {| globals := g; rcout := out |}
    = (Err IndexOutOfBounds,
       {| globals := with_globI g k; rcout := out |}).
Proof.
  unfold first_missing.
  induction todo as [|todo IH]; intros acc g out k Hk Hlo Hhi Hx; [lia|].
  cbn [integration_loop]. rewrite bind_get. cbn [globals].
  assert (Hsame : globI g = k -> with_globI g k = g)
    by (intros <-; apply with_globI_same).
  destruct (le_lt_dec (length vT_x) (globI g)) as [L|L].
  { rewrite vec_at_outside, bind_lift_err by assumption.
    now rewrite Hsame by lia. }
  rewrite vec_at_elem, bind_lift_ok by assumption.
  destruct (le_lt_dec (length vT_cal) (globI g)) as [L1|L1].
  { rewrite vec_at_outside, bind_lift_err by assumption.
    now rewrite Hsame by lia. }
  rewrite vec_at_elem, bind_lift_ok by assumption.
  destruct (le_lt_dec (length (gpvAlpha_i g)) (globI g)) as [L2|L2].
  { rewrite vec_at_outside, bind_lift_err by assumption.
    now rewrite Hsame by lia. }
  rewrite vec_at_elem, bind_lift_ok by assumption.
  rewrite (@vec_at_elem _ _ (gpvX g)), bind_lift_ok by lia.
  destruct (le_lt_dec (length (gpvBeta_i g)) (globI g)) as [L4|L4].
  { rewrite vec_at_outside, bind_lift_err by assumption.
    now rewrite Hsame by lia. }
  rewrite vec_at_elem, bind_lift_ok by assumption.
  rewrite bind_set_globI. cbn [globals rcout].
  rewrite (IH _ _ _ k)
    by (cbv [with_globI]; cbn [globI gpvAlpha_i gpvBeta_i gpvX]; lia).
  reflexivity.
Qed.

(** A kernel call on a batch whose [t_x], [t_cal], [alpha] or [beta] is
    short: the heuristic runs and prints, the customers before the first
    missing entry are integrated, and the call raises with [globI] left
    at that entry. *)
Lemma ggomnbd_LL_ind_short (r b s : num)
    (vAlpha_i vBeta_i vX vT_x vT_cal : vec num) (w : World num) :
  1 <= length vT_x -> 1 <= length vAlpha_i -> 1 <= length vBeta_i ->
  first_missing vAlpha_i vBeta_i vT_x vT_cal < length vX ->
  ggomnbd_LL_ind qags r b s vAlpha_i vBeta_i vX vT_x vT_cal w
  = (Err IndexOutOfBounds,
     {| globals := {| gpvX := vX; gpvAlpha_i := vAlpha_i;
                      gpvBeta_i := vBeta_i;
                      globI := first_missing vAlpha_i vBeta_i vT_x vT_cal;
                      r_glob := r; b_glob := b; s_glob := s |};
        rcout := rcout w
                 ++ divergence_messages r b s vAlpha_i vBeta_i vX vT_x |}).
Proof.
  intros Ht Ha Hb Hk.
  assert (Na : vAlpha_i <> []) by (intros ->; simpl in Ha; lia).
  assert (Nb : vBeta_i <> []) by (intros ->; simpl in Hb; lia).
  assert (Nt : vT_x <> []) by (intros ->; simpl in Ht; lia).
  assert (Nx : vX <> []) by (intros ->; simpl in Hk; lia).
  destruct (boundaries_ok r b s Na Nb Nx Nt) as (below & above & Hlo & Hup).
  destruct w as [g out]. unfold ggomnbd_LL_ind, divergence_messages.
  rewrite Hlo, Hup, bind_get, bind_set. cbn [globals rcout].
  rewrite !bind_lift_ok, !bind_when_print, bind_set_globI.
  cbn [globals rcout]. cbv [with_globI].
  cbn [gpvX gpvAlpha_i gpvBeta_i r_glob b_glob s_glob].
  unfold bind.
  rewrite (@integration_loop_stops vT_x vT_cal (length vX) [] _ _
             (first_missing vAlpha_i vBeta_i vT_x vT_cal))
    by (cbn [globI gpvX gpvAlpha_i gpvBeta_i]; (reflexivity || lia)).
  cbv [with_globI]. cbn [gpvX gpvAlpha_i gpvBeta_i r_glob b_glob s_glob].
  now rewrite <- app_assoc.
Qed.

End KernelErrors.

(** ** Entries that are never read *)

Section Surplus.
Context {num : Type} {DN : Double num}.
Variable qags : integrator num.

Lemma elem_app_l (v e : vec num) (i : nat) :
  i < length v -> elem (v ++ e) i = elem v i.
Proof. intros H. unfold elem. now apply app_nth1. Qed.

Lemma batch_LL_surplus (r b s : num)
    (vAlpha_i vBeta_i vX vT_x vT_cal surplus : vec num) :
  length vX <= length vT_x ->
  batch_LL qags r b s vAlpha_i vBeta_i vX (vT_x ++ surplus) vT_cal
  = batch_LL qags r b s vAlpha_i vBeta_i vX vT_x vT_cal.
Proof.
  intros H. unfold batch_LL. apply map_ext_in. intros i Hi.
  apply in_seq in Hi. now rewrite elem_app_l by lia.
Qed.

Lemma kernel_surplus (vAlpha_i vBeta_i vX vT_x vT_cal surplus : vec num) :
  length vX <= length vT_x ->
  conformingb vAlpha_i vBeta_i vX (vT_x ++ surplus) vT_cal
  = conformingb vAlpha_i vBeta_i vX vT_x vT_cal
  /\ kernel_error vAlpha_i vBeta_i vX (vT_x ++ surplus) vT_cal
     = kernel_error vAlpha_i vBeta_i vX vT_x vT_cal.
Proof.
  intros H. unfold conformingb, kernel_error. rewrite length_app.
  replace (length vX <=? length vT_x + length surplus) with true
    by (symmetry; apply Nat.leb_le; lia).
  replace (length vX <=? length vT_x) with true
    by (symmetry; apply Nat.leb_le; lia).
  split; [reflexivity|].
  replace (length vT_x + length surplus <? length vX) with false
    by (symmetry; apply Nat.ltb_ge; lia).
  replace (length vT_x <? length vX) with false
    by (symmetry; apply Nat.ltb_ge; lia).
  destruct (length vX =? 0) eqn:Z.
  - now rewrite !orb_true_r.
  - apply Nat.eqb_neq in Z.
    replace (length vT_x + length surplus =? 0) with false
      by (symmetry; apply Nat.eqb_neq; lia).
    replace (length vT_x =? 0) with false
      by (symmetry; apply Nat.eqb_neq; lia).
    reflexivity.
Qed.

(** Entries of [t_x] past the last customer do not reach the values. *)
Lemma ggomnbd_LL_ind_surplus (r b s : num)
    (vAlpha_i vBeta_i vX vT_x vT_cal surplus : vec num) (w w' : World num) :
  length vX <= length vT_x ->
  fst (ggomnbd_LL_ind qags r b s vAlpha_i vBeta_i vX (vT_x ++ surplus)
                      vT_cal w)
  = fst (ggomnbd_LL_ind qags r b s vAlpha_i vBeta_i vX vT_x vT_cal w').
Proof.
  intros H. rewrite !ggomnbd_LL_ind_result.
  destruct (kernel_surplus vAlpha_i vBeta_i vX vT_x vT_cal surplus H)
    as [-> ->].
  now rewrite batch_LL_surplus.
Qed.

Lemma nocov_parameters_surplus (vLogparams surplus vX : vec num) :
  5 <= length vLogparams ->
  nocov_parameters (vLogparams ++ surplus) vX
  = nocov_parameters vLogparams vX.
Proof.
  intros H.
  rewrite !nocov_parameters_run by (rewrite ?length_app; lia).
  now rewrite !elem_app_l by lia.
Qed.

Lemma staticcov_parameters_surplus (vParams surplus : vec num)
    (mCov_life mCov_trans : mat num) :
  layout_ok vParams mCov_life mCov_trans = true ->
  staticcov_parameters (vParams ++ surplus) mCov_life mCov_trans
  = staticcov_parameters vParams mCov_life mCov_trans.
Proof.
  intros H.
  assert (H' : layout_ok (vParams ++ surplus) mCov_life mCov_trans = true).
  { revert H. unfold layout_ok.
    rewrite !andb_true_iff, !Nat.leb_le, length_app. lia. }
  rewrite !staticcov_parameters_run by assumption.
  unfold layout_ok in H. rewrite !andb_true_iff, !Nat.leb_le in H.
  rewrite !elem_app_l by lia.
  unfold life_params, trans_params.
  rewrite !skipn_app, !firstn_app, !length_skipn.
  replace (n_cols mCov_life - (length vParams - 5)) with 0 by lia.
  replace (n_cols mCov_trans - (length vParams - (5 + n_cols mCov_life)))
    with 0 by lia.
  cbn [firstn]. now rewrite !app_nil_r.
Qed.

End Surplus.

(** ** Exact arithmetic: the covariate transform *)

Section RealTransform.
Local Open Scope R_scope.

Lemma real_mat_at_scale (M : mat R) (k : R) (i j : nat) :
  mat_at (mat_scale M k) i j = mat_at M i j * k.
Proof.
  unfold mat_at, mat_scale. cbn [n_rows mem dlit dmul Real].
  rewrite Q2R_zero.
  set (f := fun x : R => x * k).
  transitivity (nth (i + j * n_rows M) (map f (mem M)) (f 0)).
  - f_equal. unfold f. ring.
  - apply map_nth.
Qed.

Lemma real_mat_row_scale (M : mat R) (k : R) (i : nat) :
  mat_row (mat_scale M k) i = map (fun x => x * k) (mat_row M i).
Proof.
  unfold mat_row. cbn [mat_scale n_cols]. rewrite map_map.
  apply map_ext. intros j. apply real_mat_at_scale.
Qed.

Lemma real_dot_scale (u v : vec R) (k : R) :
  dot (map (fun x => x * k) u) v = dot u v * k.
Proof.
  unfold dot. cbn [dlit dadd dmul Real]. rewrite Q2R_zero.
  assert (G : forall u v a,
             fold_left Rplus (zip_with Rmult (map (fun x => x * k) u) v)
                       (a * k)
             = fold_left Rplus (zip_with Rmult u v) a * k).
  { clear. induction u as [|x u IH]; intros [|y v] a; simpl;
      try reflexivity.
    rewrite <- IH. f_equal. ring. }
  rewrite <- G. f_equal. ring.
Qed.

(** The row of the negated matrix times the coefficients is minus the
    row times the coefficients. *)
Lemma real_dot_negated_row (M : mat R) (theta : vec R) (i : nat) :
  dot (mat_row (mat_scale M (dlit (-1)%Q)) i) theta
  = - dot (mat_row M i) theta.
Proof.
  rewrite real_mat_row_scale, real_dot_scale.
  cbn [dlit Real]. rewrite Q2R_minus_one. ring.
Qed.



Lemma layout_explicit (lr la lb ls lbeta : R) (theta_life theta_trans rest : vec R)
    (mCov_life mCov_trans : mat R) :
  length theta_life = n_cols mCov_life ->
  length theta_trans = n_cols mCov_trans ->
  life_params ([lr; la; lb; ls; lbeta] ++ theta_life ++ theta_trans ++ rest)
              mCov_life = theta_life
  /\ trans_params ([lr; la; lb; ls; lbeta] ++ theta_life ++ theta_trans
                                           ++ rest)
                  mCov_life mCov_trans = theta_trans.
Proof.
  intros Hl Ht. unfold life_params, trans_params. split.
  - cbn [skipn app]. rewrite <- Hl.
    now rewrite firstn_app, Nat.sub_diag, firstn_all, app_nil_r.
  - change (5 + n_cols mCov_life)%nat
      with (S (S (S (S (S (n_cols mCov_life)))))).
    cbn [skipn app]. rewrite <- Hl, <- Ht.
    rewrite skipn_app, Nat.sub_diag, skipn_all. cbn [skipn app].
    now rewrite firstn_app, Nat.sub_diag, firstn_all, app_nil_r.
Qed.

End RealTransform.

(** ** A batch as a list of customers *)

Section Customers.
Context {num : Type} {DN : Double num}.
Variable qags : integrator num.

Lemma map_nth_seq {A B} (F : A -> B) (d : A) (l : list A) :
  map (fun i => F (nth i l d)) (seq 0 (length l)) = map F l.
Proof.
  induction l as [|x l IH]; [reflexivity|].
  cbn [length seq map nth]. f_equal.
  rewrite <- seq_shift, map_map. exact IH.
Qed.

Lemma elem_map {A} (f : A -> num) (d : A) (l : list A) (i : nat) :
  i < length l -> elem (map f l) i = f (nth i l d).
Proof.
  intros H. unfold elem.
  rewrite nth_indep with (d' := f d) by now rewrite length_map.
  apply map_nth.
Qed.

Lemma elem_repeat (a : num) (n i : nat) : i < n -> elem (repeat a n) i = a.
Proof.
  intros H. unfold elem.
  rewrite nth_indep with (d' := a) by now rewrite repeat_length.
  apply nth_repeat.
Qed.

(** The batch of the variant without covariates, customer by customer. *)
Lemma batch_LL_customers (r b s alpha_0 beta_0 : num)
    (cs : list (customer num)) :
  batch_LL qags r b s (repeat alpha_0 (length cs)) (repeat beta_0 (length cs))
           (map (@c_x num) cs) (map (@c_t_x num) cs) (map (@c_t_cal num) cs)
  = map (fun c => customer_LL qags r b s alpha_0 beta_0
                              (c_x c) (c_t_x c) (c_t_cal c)) cs.
Proof.
  destruct cs as [|c0 cs']; [reflexivity|]. set (cs := c0 :: cs').
  rewrite <- (map_nth_seq
                (fun c => customer_LL qags r b s alpha_0 beta_0
                                      (c_x c) (c_t_x c) (c_t_cal c)) c0 cs).
  unfold batch_LL. rewrite length_map. apply map_ext_in. intros i Hi.
  apply in_seq in Hi.
  rewrite !elem_repeat by lia.
  now rewrite !(elem_map _ c0) by lia.
Qed.

End Customers.

Section KernelStateAlways.
Context {num : Type} {DN : Double num}.
Variable qags : integrator num.
Local Open Scope double_scope.

(** The state a kernel call leaves, on any sizes. *)
Lemma ggomnbd_LL_ind_state (r b s : num)
    (vAlpha_i vBeta_i vX vT_x vT_cal : vec num) (w : World num) :
  snd (ggomnbd_LL_ind qags r b s vAlpha_i vBeta_i vX vT_x vT_cal w)
  = {| globals :=
         {| gpvX := vX; gpvAlpha_i := vAlpha_i; gpvBeta_i := vBeta_i;
            globI :=
              if (length vT_x =? 0) || (length vAlpha_i =? 0)
                 || (length vX =? 0) || (length vBeta_i =? 0)
              then globI (globals w)
              else Nat.min (length vX)
                     (first_missing vAlpha_i vBeta_i vT_x vT_cal);
            r_glob := r; b_glob := b; s_glob := s |};
       rcout := rcout w
                ++ divergence_messages r b s vAlpha_i vBeta_i vX vT_x |}.
Proof.
  pose proof (lower_boundary_ok r b s vAlpha_i vBeta_i vX vT_x) as Hlo.
  pose proof (upper_boundary_ok r b s vAlpha_i vBeta_i vX vT_x) as Hup.
  destruct (lower_boundary r b s vAlpha_i vBeta_i vX vT_x) as [below|e]
    eqn:Elo.
  - cbn [is_ok] in Hlo. symmetry in Hlo.
    rewrite !andb_true_iff, !negb_true_iff in Hlo.
    destruct Hlo as (((Z1 & Z2) & Z3) & Z4). rewrite Z1, Z2, Z3, Z4.
    cbn [orb]. apply Nat.eqb_neq in Z1, Z2, Z3, Z4.
    destruct (le_lt_dec (length vX)
                (first_missing vAlpha_i vBeta_i vT_x vT_cal)) as [L|L].
    + rewrite Nat.min_l by assumption.
      destruct (upper_boundary r b s vAlpha_i vBeta_i vX vT_x) as [above|]
        eqn:Eup; [|discriminate].
      destruct w as [g out]. unfold ggomnbd_LL_ind, divergence_messages.
      rewrite Elo, Eup, bind_get, bind_set. cbn [globals rcout].
      rewrite !bind_lift_ok, !bind_when_print, bind_set_globI.
      cbn [globals rcout]. cbv [with_globI].
      cbn [gpvX gpvAlpha_i gpvBeta_i r_glob b_glob s_glob].
      unfold bind. unfold first_missing in L.
      rewrite integration_loop_run
        by (cbn [globI gpvX gpvAlpha_i gpvBeta_i]; lia).
      cbv [with_globI lift].
      cbn [gpvX gpvAlpha_i gpvBeta_i r_glob b_glob s_glob globI snd].
      now rewrite <- app_assoc.
    + rewrite Nat.min_r by lia.
      now rewrite ggomnbd_LL_ind_short by lia.
  - cbn [is_ok] in Hlo. symmetry in Hlo.
    rewrite !andb_false_iff, !negb_false_iff in Hlo.
    replace ((length vT_x =? 0) || (length vAlpha_i =? 0)
             || (length vX =? 0) || (length vBeta_i =? 0)) with true
      by (symmetry; rewrite !orb_true_iff; tauto).
    destruct w as [g out]. unfold ggomnbd_LL_ind, divergence_messages.
    rewrite Elo, bind_get, bind_set, bind_lift_err.
    cbn [snd globals rcout]. now rewrite app_nil_r.
Qed.

End KernelStateAlways.

(** ** Properties of the entry points *)

(** X1. Whether a kernel call returns, and what it raises when it does
    not, is decided by the sizes alone: it returns the batch of
    per-customer values when they conform; otherwise it raises the
    exception of an empty [t_x], [alpha], [x] or [beta] (lines 49-50),
    else of a [t_x], [t_cal], [alpha] or [beta] shorter than [x] (lines
    70-73), else of operands of different sizes (lines 88-94). *)
Theorem kernel_result_by_sizes {num : Type} {DN : Double num}
    (qags : integrator num) (r b s : num)
    (vAlpha_i vBeta_i vX vT_x vT_cal : vec num) (w : World num) :
  fst (ggomnbd_LL_ind qags r b s vAlpha_i vBeta_i vX vT_x vT_cal w)
  = if conformingb vAlpha_i vBeta_i vX vT_x vT_cal
    then Ok (batch_LL qags r b s vAlpha_i vBeta_i vX vT_x vT_cal)
    else Err (kernel_error vAlpha_i vBeta_i vX vT_x vT_cal).
Proof. apply ggomnbd_LL_ind_result. Qed.

(** X2. The state a kernel call leaves is decided by its arguments,
    on any sizes and whether or not it fails: the globals hold the
    arguments; [globI] is untouched when the heuristic of lines 49-50
    meets an empty vector, and else the number of customers or, when
    smaller, the first index that [t_x], [t_cal], [alpha] or [beta] has no
    entry for; the console has the lines of the heuristic appended. *)
Theorem kernel_state_by_sizes {num : Type} {DN : Double num}
    (qags : integrator num) (r b s : num)
    (vAlpha_i vBeta_i vX vT_x vT_cal : vec num) (w : World num) :
  snd (ggomnbd_LL_ind qags r b s vAlpha_i vBeta_i vX vT_x vT_cal w)
  = {| globals :=
         {| gpvX := vX; gpvAlpha_i := vAlpha_i; gpvBeta_i := vBeta_i;
            globI :=
              if (length vT_x =? 0) || (length vAlpha_i =? 0)
                 || (length vX =? 0) || (length vBeta_i =? 0)
              then globI (globals w)
              else Nat.min (length vX)
                     (first_missing vAlpha_i vBeta_i vT_x vT_cal);
            r_glob := r; b_glob := b; s_glob := s |};
       rcout := rcout w
                ++ divergence_messages r b s vAlpha_i vBeta_i vX vT_x |}.
Proof. apply ggomnbd_LL_ind_state. Qed.

(** X3. The variant without covariates runs to its end exactly when the
    parameter vector has at least five entries, there is a customer,
    [t_cal] has [n] entries and [t_x] at least [n]; the Sum entry point
    likewise. *)
Theorem nocov_accepts_exactly {num : Type} {DN : Double num}
    (qags : integrator num) (vLogparams vX vT_x vT_cal : vec num)
    (w : World num) :
  let accepted :=
    (5 <=? length vLogparams) && (1 <=? length vX)
    && (length vT_cal =? length vX) && (length vX <=? length vT_x) in
  is_ok (fst (ggomnbd_nocov_LL_ind qags vLogparams vX vT_x vT_cal w))
  = accepted
  /\ is_ok (fst (ggomnbd_nocov_LL_sum qags vLogparams vX vT_x vT_cal w))
     = accepted.
Proof.
  cbv zeta. split.
  - apply ggomnbd_nocov_LL_ind_ok.
  - unfold ggomnbd_nocov_LL_sum.
    rewrite bind_ret_negated_sum, negated_sum_ok.
    apply ggomnbd_nocov_LL_ind_ok.
Qed.

(** X4. A parameter vector too short to decode makes every entry point
    raise an index out of bounds before the kernel is entered: no global
    is written and nothing is printed. *)
Theorem short_parameters_leave_state {num : Type} {DN : Double num}
    (qags : integrator num) (vLogparams vParams vX vT_x vT_cal : vec num)
    (mCov_life mCov_trans : mat num) (w : World num) :
  length vLogparams < 5 ->
  layout_ok vParams mCov_life mCov_trans = false ->
  ggomnbd_nocov_LL_ind qags vLogparams vX vT_x vT_cal w
  = (Err IndexOutOfBounds, w)
  /\ ggomnbd_nocov_LL_sum qags vLogparams vX vT_x vT_cal w
     = (Err IndexOutOfBounds, w)
  /\ ggomnbd_staticcov_LL_ind qags vParams vX vT_x vT_cal
                              mCov_life mCov_trans w
     = (Err IndexOutOfBounds, w)
  /\ ggomnbd_staticcov_LL_sum qags vParams vX vT_x vT_cal
                              mCov_life mCov_trans w
     = (Err IndexOutOfBounds, w).
Proof.
  intros Hn Hs.
  assert (N : ggomnbd_nocov_LL_ind qags vLogparams vX vT_x vT_cal w
              = (Err IndexOutOfBounds, w)).
  { rewrite ggomnbd_nocov_LL_ind_unfold.
    now rewrite nocov_parameters_short. }
  assert (S : ggomnbd_staticcov_LL_ind qags vParams vX vT_x vT_cal
                                       mCov_life mCov_trans w
              = (Err IndexOutOfBounds, w)).
  { rewrite ggomnbd_staticcov_LL_ind_unfold.
    now rewrite staticcov_parameters_fail. }
  unfold ggomnbd_nocov_LL_sum, ggomnbd_staticcov_LL_sum.
  rewrite !bind_ret_negated_sum, N, S. now repeat split.
Qed.

Lemma short_parameters_leave_state_witness :
  length [1; 2; 3; 4]%R < 5 /\
  layout_ok [1; 2; 3; 4; 5; 6]%R (one_by_one 0%R) (one_by_one 0%R) = false /\
  ggomnbd_nocov_LL_ind (rectangle_rule GSL_SUCCESS) [1; 2; 3; 4]%R
                       [0%R] [0%R] [1%R] initial_world
  = (Err IndexOutOfBounds, initial_world).
Proof.
  assert (H1 : length [1; 2; 3; 4]%R < 5) by (simpl; lia).
  assert (H2 : layout_ok [1; 2; 3; 4; 5; 6]%R (one_by_one 0%R)
                         (one_by_one 0%R) = false) by reflexivity.
  split; [exact H1|]. split; [exact H2|].
  exact (proj1 (@short_parameters_leave_state R Real
                  (rectangle_rule GSL_SUCCESS) [1; 2; 3; 4]%R
                  [1; 2; 3; 4; 5; 6]%R [0%R] [0%R] [1%R]
                  (one_by_one 0%R) (one_by_one 0%R) initial_world H1 H2)).
Defined.

(** X5. Entries of the parameter vector past the ones the layout reads,
    and entries of [t_x] past the last customer, do not reach what the
    individual entry points return. *)
Theorem surplus_entries_ignored {num : Type} {DN : Double num}
    (qags : integrator num)
    (vLogparams vParams surplus_params vX vT_x surplus_t_x vT_cal : vec num)
    (mCov_life mCov_trans : mat num) (w w' : World num) :
  5 <= length vLogparams ->
  layout_ok vParams mCov_life mCov_trans = true ->
  length vX <= length vT_x ->
  fst (ggomnbd_nocov_LL_ind qags (vLogparams ++ surplus_params) vX
                            (vT_x ++ surplus_t_x) vT_cal w)
  = fst (ggomnbd_nocov_LL_ind qags vLogparams vX vT_x vT_cal w')
  /\ fst (ggomnbd_staticcov_LL_ind qags (vParams ++ surplus_params) vX
                                   (vT_x ++ surplus_t_x) vT_cal
                                   mCov_life mCov_trans w)
     = fst (ggomnbd_staticcov_LL_ind qags vParams vX vT_x vT_cal
                                     mCov_life mCov_trans w').
Proof.
  intros Hn Hs Ht. split.
  - rewrite !ggomnbd_nocov_LL_ind_unfold.
    rewrite nocov_parameters_surplus by assumption.
    destruct (nocov_parameters vLogparams vX); [|reflexivity].
    now apply ggomnbd_LL_ind_surplus.
  - rewrite !ggomnbd_staticcov_LL_ind_unfold.
    rewrite staticcov_parameters_surplus by assumption.
    destruct (staticcov_parameters vParams mCov_life mCov_trans);
      [|reflexivity].
    now apply ggomnbd_LL_ind_surplus.
Qed.

Lemma surplus_entries_ignored_witness :
  5 <= length [0; 0; 0; 0; 0]%R /\
  layout_ok [0; 0; 0; 0; 0; 2; 3]%R (one_by_one 1%R) (one_by_one 1%R) = true /\
  length [0%R] <= length [0%R] /\
  fst (ggomnbd_nocov_LL_ind (rectangle_rule GSL_SUCCESS)
         ([0; 0; 0; 0; 0] ++ [7; 8])%R [0%R] ([0] ++ [5; 6])%R [1%R]
         initial_world)
  = fst (ggomnbd_nocov_LL_ind (rectangle_rule GSL_SUCCESS)
           [0; 0; 0; 0; 0]%R [0%R] [0%R] [1%R] initial_world).
Proof.
  assert (H1 : 5 <= length [0; 0; 0; 0; 0]%R) by (simpl; lia).
  assert (H2 : layout_ok [0; 0; 0; 0; 0; 2; 3]%R (one_by_one 1%R)
                         (one_by_one 1%R) = true) by reflexivity.
  assert (H3 : length [0%R] <= length [0%R]) by (simpl; lia).
  split; [exact H1|]. split; [exact H2|]. split; [exact H3|].
  exact (proj1 (@surplus_entries_ignored R Real (rectangle_rule GSL_SUCCESS)
                  [0; 0; 0; 0; 0]%R [0; 0; 0; 0; 0; 2; 3]%R [7; 8]%R
                  [0%R] [0%R] [5; 6]%R [1%R] (one_by_one 1%R)
                  (one_by_one 1%R) initial_world initial_world H1 H2 H3)).
Defined.

(** X6. Whenever the kernel or an individual entry point returns a
    vector, it has one entry per customer. *)
Theorem one_entry_per_customer {num : Type} {DN : Double num}
    (qags : integrator num) (r b s : num)
    (vAlpha_i vBeta_i vParams vX vT_x vT_cal vLL : vec num)
    (mCov_life mCov_trans : mat num) (w : World num) :
  fst (ggomnbd_LL_ind qags r b s vAlpha_i vBeta_i vX vT_x vT_cal w) = Ok vLL
  \/ fst (ggomnbd_nocov_LL_ind qags vParams vX vT_x vT_cal w) = Ok vLL
  \/ fst (ggomnbd_staticcov_LL_ind qags vParams vX vT_x vT_cal
                                   mCov_life mCov_trans w) = Ok vLL ->
  length vLL = length vX.
Proof.
  assert (K : forall r b s vAlpha_i vBeta_i,
             fst (ggomnbd_LL_ind qags r b s vAlpha_i vBeta_i vX vT_x vT_cal w)
             = Ok vLL -> length vLL = length vX).
  { intros r0 b0 s0 va vb. rewrite ggomnbd_LL_ind_result.
    destruct (conformingb va vb vX vT_x vT_cal); [|discriminate].
    intros [= <-]. apply batch_LL_length. }
  intros [H|[H|H]].
  - exact (K _ _ _ _ _ H).
  - rewrite ggomnbd_nocov_LL_ind_unfold in H.
    destruct (nocov_parameters vParams vX); [|discriminate].
    exact (K _ _ _ _ _ H).
  - rewrite ggomnbd_staticcov_LL_ind_unfold in H.
    destruct (staticcov_parameters vParams mCov_life mCov_trans);
      [|discriminate].
    exact (K _ _ _ _ _ H).
Qed.

Lemma one_entry_per_customer_witness :
  exists vLL : vec R,
    fst (ggomnbd_nocov_LL_ind (rectangle_rule GSL_SUCCESS)
           [0; 0; 0; 0; 0]%R [0; 3]%R [0; 1]%R [1; 2]%R initial_world)
    = Ok vLL
    /\ length vLL = length [0; 3]%R.
Proof.
  assert (H : fst (ggomnbd_nocov_LL_ind (rectangle_rule GSL_SUCCESS)
                     [0; 0; 0; 0; 0]%R [0; 3]%R [0; 1]%R [1; 2]%R
                     initial_world)
              = Ok (batch_LL (rectangle_rule GSL_SUCCESS)
                      (exp 0) (exp 0) (exp 0) [exp 0; exp 0] [exp 0; exp 0]
                      [0; 3]%R [0; 1]%R [1; 2]%R)).
  { rewrite ggomnbd_nocov_LL_ind_unfold.
    rewrite nocov_parameters_run by (simpl; lia).
    now rewrite ggomnbd_LL_ind_result. }
  eexists. split; [exact H|].
  exact (@one_entry_per_customer R Real (rectangle_rule GSL_SUCCESS)
           0%R 0%R 0%R [] [] [0; 0; 0; 0; 0]%R [0; 3]%R [0; 1]%R [1; 2]%R _
           (one_by_one 0%R) (one_by_one 0%R) initial_world
           (or_intror (or_introl H))).
Defined.

(** X7. A call of any entry point appends at most two lines to the
    console, whatever the batch and whether or not it fails, and removes
    none. *)
Theorem at_most_two_lines {num : Type} {DN : Double num}
    (qags : integrator num) (vLogparams vParams vX vT_x vT_cal : vec num)
    (mCov_life mCov_trans : mat num) (w : World num) :
  (exists out,
      rcout (snd (ggomnbd_nocov_LL_ind qags vLogparams vX vT_x vT_cal w))
      = rcout w ++ out /\ length out <= 2)
  /\ (exists out,
         rcout (snd (ggomnbd_nocov_LL_sum qags vLogparams vX vT_x vT_cal w))
         = rcout w ++ out /\ length out <= 2)
  /\ (exists out,
         rcout (snd (ggomnbd_staticcov_LL_ind qags vParams vX vT_x vT_cal
                                              mCov_life mCov_trans w))
         = rcout w ++ out /\ length out <= 2)
  /\ (exists out,
         rcout (snd (ggomnbd_staticcov_LL_sum qags vParams vX vT_x vT_cal
                                              mCov_life mCov_trans w))
         = rcout w ++ out /\ length out <= 2).
Proof.
  assert (D : forall r b s va vb,
             length (divergence_messages r b s va vb vX vT_x) <= 2).
  { intros r b s va vb. unfold divergence_messages.
    destruct (lower_boundary r b s va vb vX vT_x) as [below|];
      [|simpl; lia].
    destruct (upper_boundary r b s va vb vX vT_x) as [above|];
      [|simpl; lia].
    destruct (deqb below _), (dgtb above _); simpl; lia. }
  assert (N : exists out,
             rcout (snd (ggomnbd_nocov_LL_ind qags vLogparams vX vT_x
                                              vT_cal w))
             = rcout w ++ out /\ length out <= 2).
  { rewrite ggomnbd_nocov_LL_ind_unfold.
    destruct (nocov_parameters vLogparams vX) as [p|].
    - eexists. split; [apply ggomnbd_LL_ind_rcout|apply D].
    - exists []. cbn [snd length]. rewrite app_nil_r. split; [reflexivity|lia]. }
  assert (S : exists out,
             rcout (snd (ggomnbd_staticcov_LL_ind qags vParams vX vT_x vT_cal
                                                  mCov_life mCov_trans w))
             = rcout w ++ out /\ length out <= 2).
  { rewrite ggomnbd_staticcov_LL_ind_unfold.
    destruct (staticcov_parameters vParams mCov_life mCov_trans) as [p|].
    - eexists. split; [apply ggomnbd_LL_ind_rcout|apply D].
    - exists []. cbn [snd length]. rewrite app_nil_r. split; [reflexivity|lia]. }
  unfold ggomnbd_nocov_LL_sum, ggomnbd_staticcov_LL_sum.
  rewrite !bind_ret_negated_sum. unfold negated_sum. cbn [snd].
  repeat split; assumption.
Qed.


(** ** A batch of customers through the variant without covariates *)

Section CustomerBatch.
Context {num : Type} {DN : Double num}.
Variable qags : integrator num.

Lemma customers_conform (alpha_0 beta_0 : num) (cs : list (customer num)) :
  conformingb (repeat alpha_0 (length cs)) (repeat beta_0 (length cs))
              (map (@c_x num) cs) (map (@c_t_x num) cs)
              (map (@c_t_cal num) cs)
  = (1 <=? length cs).
Proof.
  unfold conformingb. rewrite !length_map, !repeat_length.
  rewrite !Nat.eqb_refl, Nat.leb_refl. now rewrite !andb_true_r.
Qed.

Lemma customers_error (alpha_0 beta_0 : num) (cs : list (customer num)) :
  (1 <=? length cs) = false ->
  kernel_error (repeat alpha_0 (length cs)) (repeat beta_0 (length cs))
               (map (@c_x num) cs) (map (@c_t_x num) cs)
               (map (@c_t_cal num) cs)
  = NoElements.
Proof.
  intros H. apply Nat.leb_gt in H.
  destruct cs; [reflexivity|simpl in H; lia].
Qed.

(** What the individual entry point returns for a list of customers. *)
Lemma ggomnbd_nocov_LL_ind_customers (vLogparams : vec num)
    (cs : list (customer num)) (w : World num) :
  fst (ggomnbd_nocov_LL_ind qags vLogparams (map (@c_x num) cs)
         (map (@c_t_x num) cs) (map (@c_t_cal num) cs) w)
  = if 5 <=? length vLogparams
    then if 1 <=? length cs
         then Ok (map (fun c =>
                         customer_LL qags (dexp (elem vLogparams 0))
                           (dexp (elem vLogparams 2))
                           (dexp (elem vLogparams 3))
                           (dexp (elem vLogparams 1))
                           (dexp (elem vLogparams 4))
                           (c_x c) (c_t_x c) (c_t_cal c)) cs)
         else Err NoElements
    else Err IndexOutOfBounds.
Proof.
  rewrite ggomnbd_nocov_LL_ind_unfold.
  destruct (5 <=? length vLogparams) eqn:Hp.
  - apply Nat.leb_le in Hp. rewrite nocov_parameters_run by assumption.
    cbn [p_r p_b p_s p_vAlpha_i p_vBeta_i].
    rewrite ggomnbd_LL_ind_result, !length_map, customers_conform.
    destruct (1 <=? length cs) eqn:Hc.
    + now rewrite batch_LL_customers.
    + now rewrite customers_error.
  - apply Nat.leb_gt in Hp. now rewrite nocov_parameters_short.
Qed.


(** X11. The value of a customer does not depend on the customer's
    place in the batch nor on the other customers: for any choice of
    positions, a reordering in particular, the batch of the customers at
    these positions gets the values at these positions. *)
Theorem customer_order_irrelevant (vLogparams : vec num)
    (cs : list (customer num)) (c0 : customer num) (positions : list nat)
    (w w' : World num) :
  5 <= length vLogparams -> cs <> [] -> positions <> [] ->
  Forall (fun i => i < length cs) positions ->
  let cs' := map (fun i => nth i cs c0) positions in
  exists vLL : vec num,
    fst (ggomnbd_nocov_LL_ind qags vLogparams (map (@c_x num) cs)
           (map (@c_t_x num) cs) (map (@c_t_cal num) cs) w) = Ok vLL
    /\ length vLL = length cs
    /\ fst (ggomnbd_nocov_LL_ind qags vLogparams (map (@c_x num) cs')
              (map (@c_t_x num) cs') (map (@c_t_cal num) cs') w')
       = Ok (map (fun i => elem vLL i) positions).
Proof.
  intros Hp Hc Hi Hin. cbv zeta.
  rewrite !ggomnbd_nocov_LL_ind_customers, length_map.
  apply Nat.leb_le in Hp. rewrite Hp.
  replace (1 <=? length cs) with true
    by (symmetry; apply Nat.leb_le; destruct cs; [congruence|simpl; lia]).
  replace (1 <=? length positions) with true
    by (symmetry; apply Nat.leb_le;
        destruct positions; [congruence|simpl; lia]).
  eexists. split; [reflexivity|]. split; [apply length_map|].
  f_equal. rewrite map_map. apply map_ext_in. intros i Hi'.
  rewrite (elem_map _ c0) by (rewrite Forall_forall in Hin; now apply Hin).
  reflexivity.
Qed.

(** X12. A batch can be split: the values of two batches put together
    are the values of the first followed by those of the second. *)
Theorem batch_splits (vLogparams : vec num) (cs cs' : list (customer num))
    (w w1 w2 : World num) :
  5 <= length vLogparams -> cs <> [] -> cs' <> [] ->
  exists vLL vLL' : vec num,
    fst (ggomnbd_nocov_LL_ind qags vLogparams (map (@c_x num) cs)
           (map (@c_t_x num) cs) (map (@c_t_cal num) cs) w1) = Ok vLL
    /\ fst (ggomnbd_nocov_LL_ind qags vLogparams (map (@c_x num) cs')
              (map (@c_t_x num) cs') (map (@c_t_cal num) cs') w2) = Ok vLL'
    /\ fst (ggomnbd_nocov_LL_ind qags vLogparams
              (map (@c_x num) (cs ++ cs')) (map (@c_t_x num) (cs ++ cs'))
              (map (@c_t_cal num) (cs ++ cs')) w)
       = Ok (vLL ++ vLL').
Proof.
  intros Hp Hc Hc'.
  rewrite !ggomnbd_nocov_LL_ind_customers.
  apply Nat.leb_le in Hp. rewrite Hp.
  destruct cs as [|c cs]; [congruence|].
  destruct cs' as [|c' cs']; [congruence|].
  cbn [length Nat.leb app].
  do 2 eexists. split; [reflexivity|]. split; [reflexivity|].
  change (c :: cs ++ c' :: cs') with ((c :: cs) ++ (c' :: cs')).
  now rewrite map_app.
Qed.

(** X14. For at least five parameters and at least one customer the Sum
    entry point returns the negated [arma::sum] of the customers'
    log-likelihoods [log (exp L1 + exp L2)] at [r = exp p0],
    [alpha = exp p1], [b = exp p2], [s = exp p3] and [beta = exp p4],
    every operation being the one of [double]. *)
Theorem sum_closed_form (vLogparams : vec num) (cs : list (customer num))
    (w : World num) :
  5 <= length vLogparams -> cs <> [] ->
  let r := dexp (elem vLogparams 0) in
  let alpha := dexp (elem vLogparams 1) in
  let b := dexp (elem vLogparams 2) in
  let s := dexp (elem vLogparams 3) in
  let beta := dexp (elem vLogparams 4) in
  fst (ggomnbd_nocov_LL_sum qags vLogparams (map (@c_x num) cs)
         (map (@c_t_x num) cs) (map (@c_t_cal num) cs) w)
  = Ok (- arma_sum
            (map (fun c =>
                    let Integral :=
                      result (qags_call qags r b s alpha beta
                                        (c_x c) (c_t_x c) (c_t_cal c)) in
                    dlog (dexp (customer_L1 r b s alpha beta
                                            (c_x c) (c_t_cal c))
                          + dexp (customer_L2 r b s alpha beta
                                              (c_x c) Integral)))
                 cs))%D.
Proof.
  intros Hp Hc. cbv zeta. unfold ggomnbd_nocov_LL_sum.
  rewrite bind_ret_negated_sum. unfold negated_sum. cbn [fst].
  rewrite ggomnbd_nocov_LL_ind_customers.
  apply Nat.leb_le in Hp. rewrite Hp.
  destruct cs as [|c cs]; [congruence|]. cbn [length Nat.leb].
  reflexivity.
Qed.

End CustomerBatch.

(** ** Exact arithmetic: the covariates *)

Section RealEvaluators.
Variable qags : integrator R.
Local Open Scope R_scope.


(** X9. The covariate variant reads its parameter vector as the five
    logarithms, then the lifetime coefficients, then the transaction
    coefficients: customer [i] gets
    [alpha_i = alpha_0 * exp (- row i of mCov_trans . theta_trans)] and
    [beta_i = beta_0 * exp (- row i of mCov_life . theta_life)]. *)
Theorem covariate_transform (lr la lb ls lbeta : R)
    (theta_life theta_trans rest vX vT_x vT_cal : vec R)
    (mCov_life mCov_trans : mat R) (w : World R) :
  (1 <= n_cols mCov_life)%nat -> (1 <= n_cols mCov_trans)%nat ->
  length theta_life = n_cols mCov_life ->
  length theta_trans = n_cols mCov_trans ->
  ggomnbd_staticcov_LL_ind qags
    ([lr; la; lb; ls; lbeta] ++ theta_life ++ theta_trans ++ rest)
    vX vT_x vT_cal mCov_life mCov_trans w
  = ggomnbd_LL_ind qags (exp lr) (exp lb) (exp ls)
      (map (fun i => exp la * exp (- dot (mat_row mCov_trans i) theta_trans))
           (seq 0 (n_rows mCov_trans)))
      (map (fun i => exp lbeta * exp (- dot (mat_row mCov_life i) theta_life))
           (seq 0 (n_rows mCov_life)))
      vX vT_x vT_cal w.
Proof.
  intros Hl Ht Hll Hlt.
  rewrite ggomnbd_staticcov_LL_ind_unfold.
  rewrite staticcov_parameters_run.
  2:{ unfold layout_ok. rewrite !length_app. simpl length.
      rewrite <- Hll, <- Hlt in *.
      repeat (apply andb_true_intro; split); apply Nat.leb_le; lia. }
  destruct (layout_explicit lr la lb ls lbeta theta_life theta_trans rest
              mCov_life mCov_trans Hll Hlt) as [-> ->].
  cbn [p_r p_b p_s p_vAlpha_i p_vBeta_i].
  change (elem ([lr; la; lb; ls; lbeta] ++ theta_life ++ theta_trans ++ rest)
               0) with lr.
  change (elem ([lr; la; lb; ls; lbeta] ++ theta_life ++ theta_trans ++ rest)
               1) with la.
  change (elem ([lr; la; lb; ls; lbeta] ++ theta_life ++ theta_trans ++ rest)
               2) with lb.
  change (elem ([lr; la; lb; ls; lbeta] ++ theta_life ++ theta_trans ++ rest)
               3) with ls.
  change (elem ([lr; la; lb; ls; lbeta] ++ theta_life ++ theta_trans ++ rest)
               4) with lbeta.
  cbn [dexp dmul Real].
  f_equal; apply map_ext; intros i; now rewrite real_dot_negated_row.
Qed.


End RealEvaluators.


Lemma covariate_transform_witness :
  1 <= n_cols (one_by_one 2%R) /\
  length [3%R] = n_cols (one_by_one 2%R) /\
  ggomnbd_staticcov_LL_ind (rectangle_rule GSL_SUCCESS)
    ([0; 0; 0; 0; 0] ++ [3] ++ [4] ++ [])%R [0%R] [0%R] [1%R]
    (one_by_one 2%R) (one_by_one 5%R) initial_world
  = ggomnbd_LL_ind (rectangle_rule GSL_SUCCESS) (exp 0) (exp 0) (exp 0)
      (map (fun i => exp 0 * exp (- dot (mat_row (one_by_one 5) i) [4]))%R
           (seq 0 (n_rows (one_by_one 5%R))))
      (map (fun i => exp 0 * exp (- dot (mat_row (one_by_one 2) i) [3]))%R
           (seq 0 (n_rows (one_by_one 2%R))))
      [0%R] [0%R] [1%R] initial_world.
Proof.
  assert (H1 : 1 <= n_cols (one_by_one 2%R)) by (simpl; lia).
  assert (H2 : 1 <= n_cols (one_by_one 5%R)) by (simpl; lia).
  assert (H3 : length [3%R] = n_cols (one_by_one 2%R)) by reflexivity.
  assert (H4 : length [4%R] = n_cols (one_by_one 5%R)) by reflexivity.
  split; [exact H1|]. split; [exact H3|].
  exact (@covariate_transform (rectangle_rule GSL_SUCCESS) 0%R 0%R 0%R 0%R
           0%R [3%R] [4%R] [] [0%R] [0%R] [1%R] (one_by_one 2%R)
           (one_by_one 5%R) initial_world H1 H2 H3 H4).
Defined.


Lemma customer_order_irrelevant_witness :
  Forall (fun i => i < 2) [1; 0; 1] /\
  exists vLL : vec float,
    fst (ggomnbd_nocov_LL_ind (rectangle_rule GSL_SUCCESS)
           [0; 0; 0; 0; 0]%float [0; 2]%float [1; 1]%float [1; 3]%float
           initial_world) = Ok vLL
    /\ length vLL = 2
    /\ fst (ggomnbd_nocov_LL_ind (rectangle_rule GSL_SUCCESS)
              [0; 0; 0; 0; 0]%float [2; 0; 2]%float [1; 1; 1]%float
              [3; 1; 3]%float initial_world)
       = Ok [elem vLL 1; elem vLL 0; elem vLL 1].
Proof.
  assert (H1 : 5 <= length [0; 0; 0; 0; 0]%float) by (simpl; lia).
  assert (H2 : [{| c_x := 0; c_t_x := 1; c_t_cal := 1 |};
                {| c_x := 2; c_t_x := 1; c_t_cal := 3 |}]%float <> [])
    by discriminate.
  assert (H3 : [1; 0; 1] <> []) by discriminate.
  assert (H4 : Forall (fun i => i < 2) [1; 0; 1])
    by (repeat constructor).
  split; [exact H4|].
  exact (@customer_order_irrelevant float Binary64.double
           (rectangle_rule GSL_SUCCESS) [0; 0; 0; 0; 0]%float
           [{| c_x := 0; c_t_x := 1; c_t_cal := 1 |};
            {| c_x := 2; c_t_x := 1; c_t_cal := 3 |}]%float
           {| c_x := 0; c_t_x := 0; c_t_cal := 0 |}%float [1; 0; 1]
           initial_world initial_world H1 H2 H3 H4).
Defined.

Lemma batch_splits_witness :
  exists vLL vLL' : vec float,
    fst (ggomnbd_nocov_LL_ind (rectangle_rule GSL_SUCCESS)
           [0; 0; 0; 0; 0]%float [0%float] [1%float] [1%float]
           initial_world) = Ok vLL
    /\ fst (ggomnbd_nocov_LL_ind (rectangle_rule GSL_SUCCESS)
              [0; 0; 0; 0; 0]%float [2%float] [1%float] [3%float]
              initial_world) = Ok vLL'
    /\ fst (ggomnbd_nocov_LL_ind (rectangle_rule GSL_SUCCESS)
              [0; 0; 0; 0; 0]%float [0; 2]%float [1; 1]%float [1; 3]%float
              initial_world)
       = Ok (vLL ++ vLL').
Proof.
  assert (H1 : 5 <= length [0; 0; 0; 0; 0]%float) by (simpl; lia).
  assert (H2 : [{| c_x := 0; c_t_x := 1; c_t_cal := 1 |}]%float <> [])
    by discriminate.
  assert (H3 : [{| c_x := 2; c_t_x := 1; c_t_cal := 3 |}]%float <> [])
    by discriminate.
  exact (@batch_splits float Binary64.double (rectangle_rule GSL_SUCCESS)
           [0; 0; 0; 0; 0]%float
           [{| c_x := 0; c_t_x := 1; c_t_cal := 1 |}]%float
           [{| c_x := 2; c_t_x := 1; c_t_cal := 3 |}]%float
           initial_world initial_world initial_world H1 H2 H3).
Defined.

Lemma sum_closed_form_witness :
  5 <= length [0; 0; 0; 0; 0]%float /\
  fst (ggomnbd_nocov_LL_sum (rectangle_rule GSL_SUCCESS)
         [0; 0; 0; 0; 0]%float [0; 2]%float [1; 1]%float [1; 3]%float
         initial_world)
  = Ok (- arma_sum
            [dlog (dexp (customer_L1 (dexp 0) (dexp 0) (dexp 0) (dexp 0)
                                     (dexp 0) 0 1)
                   + dexp (customer_L2 (dexp 0) (dexp 0) (dexp 0) (dexp 0)
                             (dexp 0) 0
                             (result (qags_call (rectangle_rule GSL_SUCCESS)
                                        (dexp 0) (dexp 0) (dexp 0) (dexp 0)
                                        (dexp 0) 0 1 1))));
             dlog (dexp (customer_L1 (dexp 0) (dexp 0) (dexp 0) (dexp 0)
                                     (dexp 0) 2 3)
                   + dexp (customer_L2 (dexp 0) (dexp 0) (dexp 0) (dexp 0)
                             (dexp 0) 2
                             (result (qags_call (rectangle_rule GSL_SUCCESS)
                                        (dexp 0) (dexp 0) (dexp 0) (dexp 0)
                                        (dexp 0) 2 1 3))))])%float.
Proof.
  assert (H1 : 5 <= length [0; 0; 0; 0; 0]%float) by (simpl; lia).
  assert (H2 : [{| c_x := 0; c_t_x := 1; c_t_cal := 1 |};
                {| c_x := 2; c_t_x := 1; c_t_cal := 3 |}]%float <> [])
    by discriminate.
  split; [exact H1|].
  exact (@sum_closed_form float Binary64.double (rectangle_rule GSL_SUCCESS)
           [0; 0; 0; 0; 0]%float
           [{| c_x := 0; c_t_x := 1; c_t_cal := 1 |};
            {| c_x := 2; c_t_x := 1; c_t_cal := 3 |}]%float
           initial_world H1 H2).
Defined.
